(** * static_factory: a shallow embedding of [include/static_factory.hpp]

    The header defines a process-wide registry of producers,
    [static_factory<BaseType, KeyType>], on top of a small insertion-ordered
    association vector, [detail::unordered_flat_map].  This development
    embeds both and states the behaviour of registration, keyed
    instantiation and the [try_make*] fallback loops.

    Conventions of the embedding:
    - [size_t] values (hashes) are integers [Z]; the code only compares them;
    - template arguments that only exist at compile time (return types,
      argument packs, type traits) are explicit arguments; a call that the
      compiler rejects ([static_assert], a failed [requires], a missing
      conversion) has no program: the embedding returns [None] for it;
    - the registry is global mutable state, producers may have effects of
      their own and may raise: every operation is a computation in the
      state-and-exception monad [M];
    - the mutex is not modelled: the embedding is the sequential behaviour
      of one call at a time;
    - a call hands its arguments to a producer through
      [std::forward<Args>(args)...] into the by-value parameters of
      [std::function::operator()]: the producer receives the values, and an
      argument that was passed as an rvalue is moved from.  The fallback
      loops forward the same pack on every iteration, so a later producer
      receives what the earlier calls left of it. *)

From Stdlib Require Import ZArith.
From Stdlib Require Ascii String.
From stdpp Require Import base decidable option list functions strings.

Open Scope Z_scope.

(** ** namespace detail *)

Module detail.

(** [unordered_flat_map<Key, Value>]: the private member [m_data], a
  [std::vector<std::pair<key_type, value_type>>]. *)
Abbreviation unordered_flat_map Key Value := (list (Key * Value)%type).

Section unordered_flat_map.
Context {Key Value : Type} `{EqDecision Key}.

(** [find(key)]: [std::find_if] with the predicate [p.first == key].
    The iterator is the position together with the pair it designates;
    [None] is [end()]. *)
Definition find (key : Key) (m_data : unordered_flat_map Key Value)
  : option (nat * (Key * Value)) :=
  list_find (λ p, p.1 = key) m_data.

(** [it->second = value]: a write through an iterator or a reference
    into the vector. *)
Definition set_second (it : nat) (value : Value)
    (m_data : unordered_flat_map Key Value) : unordered_flat_map Key Value :=
  alter (λ p, (p.1, value)) it m_data.

(** [insert(key, value)]. *)
Definition insert (key : Key) (value : Value)
    (m_data : unordered_flat_map Key Value) : unordered_flat_map Key Value :=
  match find key m_data with
  | None => m_data ++ [(key, value)]
  | Some (it, _) => set_second it value m_data
  end.

(** [operator[](key)]: the vector afterwards and the position of the
    slot the returned reference designates.  [value_type()] is the
    argument [dflt]. *)
Definition operator_index (dflt : Value) (key : Key)
    (m_data : unordered_flat_map Key Value)
  : unordered_flat_map Key Value * nat :=
  match find key m_data with
  | None => (m_data ++ [(key, dflt)], length m_data)
  | Some (it, _) => (m_data, it)
  end.

(** [m[key] = value]: [operator[]] followed by the assignment through
    the reference it returned. *)
Definition assign (dflt : Value) (key : Key) (value : Value)
    (m_data : unordered_flat_map Key Value) : unordered_flat_map Key Value :=
  let '(m_data', slot) := operator_index dflt key m_data in
  set_second slot value m_data'.

(** The keys in iteration order ([begin()] to [end()]). *)
Definition keys (m_data : unordered_flat_map Key Value) : list Key :=
  m_data.*1.

(** How many entries carry [key]. *)
Definition count (key : Key) (m_data : unordered_flat_map Key Value) : nat :=
  length (filter (λ p, p.1 = key) m_data).

End unordered_flat_map.

End detail.

(** ** The program around one instantiation of the factory *)

(** One instantiation [static_factory<BaseType, KeyType>] and what the
    program supplies to it. *)
Class Instantiation := {
  (** [BaseType]: the values [make] returns. *)
  base_type : Type;
  (** [KeyType]. *)
  key_type : Type;
  (** [g_hash_function], that is [std::hash<key_type>()]. *)
  g_hash_function : key_type → Z;
  (** [std::is_default_constructible_v<base_type>], with [base_type()]. *)
  base_type_default : option base_type;
  (** The implicit conversion from [size_t] to [const key_type&] that the
      call in [register_type()] needs; [None] when [key_type] has none
      (as [std::string]). *)
  key_type_of_size_t : option (Z → key_type);
  (** The decayed argument types [std::decay_t<Args>], with decidable
      equality: two packs name the same [g_registry] when they are equal. *)
  arg_type : Type;
  arg_type_eq_dec :: EqDecision arg_type;
  (** Call arguments and their decayed types. *)
  argument : Type;
  decay_t : argument → arg_type;
  (** What the caller's argument holds after [std::forward<Args>(arg)] has
      initialised a by-value parameter of [std::function::operator()]: the
      argument itself when it was passed as an lvalue (the parameter is a
      copy), the moved-from state of its type when it was passed as an
      rvalue. *)
  after_forward : argument → argument;
  (** The objects of the classes derived from [base_type]: what a
      [base_type*], a [std::shared_ptr<base_type>] and a
      [std::unique_ptr<base_type>] point to. *)
  object : Type;
  (** State of the program that producers may read and write. *)
  world : Type;
  (** What producers may throw besides the standard exceptions below. *)
  thrown : Type;
}.

Section static_factory.
Context `{Instantiation}.

(** *** Exceptions and results *)

Inductive exception :=
| runtime_error (what : string)        (* std::runtime_error *)
| bad_function_call                    (* std::bad_function_call *)
| other_exception (e : thrown).

(** The two failures the factory raises itself. *)
Definition RegistryMiss : exception := runtime_error "Registry not found".
Definition NoRegistryAvailable : exception :=
  runtime_error "no valid registery is found".

Inductive outcome (A : Type) :=
| returned (a : A)
| raised (e : exception).
Global Arguments returned {A} a.
Global Arguments raised {A} e.

Definition outcome_map {A B} (f : A → B) (r : outcome A) : outcome B :=
  match r with
  | returned a => returned (f a)
  | raised e => raised e
  end.

(** *** Producers *)

(** The pack [Args...] after decay. *)
Definition signature := list arg_type.

Definition decay (args : list argument) : signature := decay_t <$> args.

(** The caller's pack after one call [func(std::forward<Args>(args)...)],
    and after [n] of them. *)
Definition forward_all (args : list argument) : list argument :=
  after_forward <$> args.

Definition forwarded (n : nat) (args : list argument) : list argument :=
  Nat.iter n forward_all args.

(** A callable with result type [R]: it receives the arguments, may change
    the world, and returns or raises. *)
Definition callable (R : Type) := list argument → world → outcome R * world.

Definition callable_map {A B} (f : A → B) (c : callable A) : callable B :=
  λ args w, let '(r, w') := c args w in (outcome_map f r, w').

(** [std::function<R(Args...)>]: empty, or holding a target. *)
Inductive function (R : Type) :=
| empty_function
| target (f : callable R).
Global Arguments empty_function {R}.
Global Arguments target {R} f.

(** Construction of a [std::function<B(Args...)>] from a
    [std::function<A(Args...)>], the result converted by [f]; an empty one
    stays empty. *)
Definition function_map {A B} (f : A → B) (func : function A) : function B :=
  match func with
  | empty_function => empty_function
  | target c => target (callable_map f c)
  end.

(** *** The registries *)

(** The four result forms for which the factory keeps registries. *)
Inductive Shape := Value | RawHandle | SharedOwnership | UniqueOwnership.

Global Instance Shape_eq_dec : EqDecision Shape.
Proof. solve_decision. Defined.

(** A possibly null handle; [None] is [nullptr]. *)
Definition pointer := option object.

(** [RetType] of the registry of a shape: [base_type], [base_type*],
    [std::shared_ptr<base_type>], [std::unique_ptr<base_type>]. *)
Definition RetType (s : Shape) : Type :=
  match s with
  | Value => base_type
  | RawHandle => pointer
  | SharedOwnership => pointer
  | UniqueOwnership => pointer
  end.

(** One [g_registry<RetType, Args...>]. *)
Definition partition (R : Type) := detail.unordered_flat_map Z (function R).

(** All the variables [g_registry<RetType, Args...>] of the instantiation,
    by [RetType] and then by the pack. *)
Record registries := Registries {
  value_registry : signature → partition base_type;
  ptr_registry : signature → partition pointer;
  shared_registry : signature → partition pointer;
  unique_registry : signature → partition pointer;
}.

Definition g_registry (r : registries) (s : Shape)
  : signature → partition (RetType s) :=
  match s with
  | Value => value_registry r
  | RawHandle => ptr_registry r
  | SharedOwnership => shared_registry r
  | UniqueOwnership => unique_registry r
  end.

Definition set_g_registry (r : registries) (s : Shape)
  : (signature → partition (RetType s)) → registries :=
  match s with
  | Value => λ p, Registries p (ptr_registry r) (shared_registry r) (unique_registry r)
  | RawHandle => λ p, Registries (value_registry r) p (shared_registry r) (unique_registry r)
  | SharedOwnership => λ p, Registries (value_registry r) (ptr_registry r) p (unique_registry r)
  | UniqueOwnership => λ p, Registries (value_registry r) (ptr_registry r) (shared_registry r) p
  end.

(** Static initialisation: every registry is empty. *)
Definition empty_registries : registries :=
  Registries (λ _, []) (λ _, []) (λ _, []) (λ _, []).

(** *** The state and the monad *)

(** The state of a run: the registries, the world of the producers, and a
    ghost log of the ids of the entries whose [std::function] was called,
    oldest first. *)
Record state := State {
  registry : registries;
  environment : world;
  invoked : list Z;
}.

Definition M (A : Type) := state → outcome A * state.

Global Instance M_ret : MRet M := λ A a st, (returned a, st).

Global Instance M_bind : MBind M := λ A B k m st,
  match m st with
  | (returned a, st') => k a st'
  | (raised e, st') => (raised e, st')
  end.

(** [throw e]. *)
Definition throw {A} (e : exception) : M A := λ st, (raised e, st).

(** [try { body } catch(...) { handler }] where the handler sees
    [std::current_exception()]. *)
Definition try_catch {A} (body : M A) (handler : exception → M A) : M A :=
  λ st,
  match body st with
  | (returned a, st') => (returned a, st')
  | (raised e, st') => handler e st'
  end.

(** [func(args...)] for the [std::function] of the entry [id]: an empty
    function raises [std::bad_function_call], a target runs on the world. *)
Definition invoke {R} (id : Z) (func : function R) (args : list argument) : M R :=
  λ st,
  let log := invoked st ++ [id] in
  match func with
  | empty_function =>
      (raised bad_function_call, State (registry st) (environment st) log)
  | target f =>
      let '(r, w) := f args (environment st) in
      (r, State (registry st) w log)
  end.

(** [get_registry<RetType, Args...>()], read. *)
Definition get_registry (s : Shape) (Args : signature) : M (partition (RetType s)) :=
  λ st, (returned (g_registry (registry st) s Args), st).

(** [get_registry<RetType, Args...>()[hash] = func]. *)
Definition registry_assign (s : Shape) (Args : signature) (hash : Z)
    (func : function (RetType s)) : M unit :=
  λ st,
  let regs := g_registry (registry st) s in
  let m_data := detail.assign empty_function hash func (regs Args) in
  (returned (),
   State (set_g_registry (registry st) s (<[Args := m_data]> regs))
         (environment st) (invoked st)).

(** *** Compile-time facts about types *)

(** [detail::is_related_v<base_type, T>], from [std::is_base_of_v<base_type, T>]
    and [std::is_convertible_v<T, base_type>]. *)
Definition is_related_v (is_base_of_v is_convertible_v : bool) : bool :=
  is_base_of_v || is_convertible_v.

(** Whether a conversion exists. *)
Definition exists_conversion {A} (conv : option A) : bool :=
  match conv with Some _ => true | None => false end.

(** What [register_type] and the instantiations by type use of a
    [ConcreteType]. *)
Record concrete_type := ConcreteType {
  (** [typeid(ConcreteType).hash_code()]. *)
  hash_code : Z;
  (** [std::is_base_of_v<base_type, ConcreteType>]. *)
  is_base_of : bool;
  (** [std::is_convertible_v<ConcreteType, base_type>], with the conversion. *)
  to_base_type : option (object → base_type);
  (** [ConcreteType(std::forward<Args>(args)...)]. *)
  constructor : callable object;
}.

(** What [register_function_impl] uses of the [ReturnType] of a callable. *)
Record return_type := ReturnTypeOf {
  (** The values of the type. *)
  values : Type;
  (** [std::is_base_of_v<base_type, ReturnType>]. *)
  ret_is_base_of : bool;
  (** [std::is_convertible_v<ReturnType, base_type>], with the conversion. *)
  ret_to_base_type : option (values → base_type);
  (** [std::is_convertible_v<ReturnType, base_type*>], with the conversion. *)
  ret_to_pointer : option (values → pointer);
  (** [ReturnType] is a [std::shared_ptr<D>] with [base_type] a base of
      [D], and then the conversion to [std::shared_ptr<base_type>]. *)
  ret_shared_ptr_of_derived : option (values → pointer);
  (** The same for [std::unique_ptr<D>]. *)
  ret_unique_ptr_of_derived : option (values → pointer);
}.

(** *** Registration *)

(** [register_function_impl(key, std::function<ReturnType(Args...)>&& func)].
    [None]: one of the two [static_assert]s fails. *)
Definition register_function_impl (ReturnType : return_type) (Args : signature)
    (key : key_type) (func : function (values ReturnType)) : option (M unit) :=
  if is_related_v (ret_is_base_of ReturnType)
                  (exists_conversion (ret_to_base_type ReturnType)) then
    let hash := g_hash_function key in
    match ret_to_base_type ReturnType with
    | Some conv => Some (registry_assign Value Args hash (function_map conv func))
    | None =>
    match ret_to_pointer ReturnType with
    | Some conv => Some (registry_assign RawHandle Args hash (function_map conv func))
    | None =>
    match ret_shared_ptr_of_derived ReturnType with
    | Some conv => Some (registry_assign SharedOwnership Args hash (function_map conv func))
    | None =>
    match ret_unique_ptr_of_derived ReturnType with
    | Some conv => Some (registry_assign UniqueOwnership Args hash (function_map conv func))
    | None => None
    end end end end
  else None.

(** [register_function(key, func)]: [std::function(std::forward<Func>(func))]
    is the argument [func], its [ReturnType] and [Args] deduced. *)
Definition register_function (ReturnType : return_type) (Args : signature)
    (key : key_type) (func : function (values ReturnType)) : option (M unit) :=
  register_function_impl ReturnType Args key func.

(** The three lambdas of the handle branch: [new ConcreteType(...)],
    [std::make_shared<ConcreteType>(...)], [std::make_unique<ConcreteType>(...)];
    each yields a handle that is not null. *)
Definition new_object (T : concrete_type) : function pointer :=
  target (callable_map Some (constructor T)).

(** [register_type<ConcreteType, Args...>(key)].  [None]: a [static_assert]
    fails. *)
Definition register_type (T : concrete_type) (Args : signature) (key : key_type)
  : option (M unit) :=
  if is_related_v (is_base_of T) (exists_conversion (to_base_type T)) then
    let hash := g_hash_function key in
    match to_base_type T with
    | Some conv =>
        Some (registry_assign Value Args hash (target (callable_map conv (constructor T))))
    | None =>
        if is_base_of T then
          Some (registry_assign RawHandle Args hash (new_object T);;
                registry_assign SharedOwnership Args hash (new_object T);;
                registry_assign UniqueOwnership Args hash (new_object T))
        else None
    end
  else None.

(** [register_type<ConcreteType, Args...>()]: the call
    [register_type<ConcreteType, Args...>(typeid(ConcreteType).hash_code())],
    whose argument is converted to [key_type]. *)
Definition register_type_by_typeid (T : concrete_type) (Args : signature)
  : option (M unit) :=
  match key_type_of_size_t with
  | Some conv => register_type T Args (conv (hash_code T))
  | None => None
  end.

(** *** Instantiation by key *)

(** [make(key, args...)]. *)
Definition make (key : key_type) (args : list argument) : M base_type :=
  let hash := g_hash_function key in
  reg ← get_registry Value (decay args);
  match detail.find hash reg with
  | None => throw (runtime_error "Registry not found")
  | Some (_, (id, func)) => invoke id func args
  end.

(** [make_ptr(key, args...)]. *)
Definition make_ptr (key : key_type) (args : list argument) : M pointer :=
  let hash := g_hash_function key in
  reg ← get_registry RawHandle (decay args);
  match detail.find hash reg with
  | None => throw (runtime_error "Registry not found")
  | Some (_, (id, func)) => invoke id func args
  end.

(** [make_shared(key, args...)]. *)
Definition make_shared (key : key_type) (args : list argument) : M pointer :=
  let hash := g_hash_function key in
  reg ← get_registry SharedOwnership (decay args);
  match detail.find hash reg with
  | None => throw (runtime_error "Registry not found")
  | Some (_, (id, func)) => invoke id func args
  end.

(** [make_unique(key, args...)]. *)
Definition make_unique (key : key_type) (args : list argument) : M pointer :=
  let hash := g_hash_function key in
  reg ← get_registry UniqueOwnership (decay args);
  match detail.find hash reg with
  | None => throw (runtime_error "Registry not found")
  | Some (_, (id, func)) => invoke id func args
  end.

(** *** Instantiation by type identity *)

(** The unchecked downcasts [static_cast<ConcreteType*>],
    [std::static_pointer_cast<ConcreteType>] and the
    [release]/[static_cast]/re-wrap of [make_unique]: the handle designates
    the same object. *)
Definition static_cast (p : pointer) : pointer := p.

(** [make<ConcreteType>(args...)]; [None]: the [requires] clause fails. *)
Definition make_of_type (T : concrete_type) (args : list argument)
  : option (M base_type) :=
  if exists_conversion (to_base_type T) then
    Some (let hash := hash_code T in
          reg ← get_registry Value (decay args);
          match detail.find hash reg with
          | None => throw (runtime_error "Registry not found")
          | Some (_, (id, func)) => invoke id func args
          end)
  else None.

(** [make_ptr<ConcreteType>(args...)]. *)
Definition make_ptr_of_type (T : concrete_type) (args : list argument) : M pointer :=
  let hash := hash_code T in
  reg ← get_registry RawHandle (decay args);
  match detail.find hash reg with
  | None => throw (runtime_error "Registry not found")
  | Some (_, (id, func)) =>
      obj ← invoke id func args;
      mret (static_cast obj)
  end.

(** [make_shared<ConcreteType>(args...)]. *)
Definition make_shared_of_type (T : concrete_type) (args : list argument) : M pointer :=
  let hash := hash_code T in
  reg ← get_registry SharedOwnership (decay args);
  match detail.find hash reg with
  | None => throw (runtime_error "Registry not found")
  | Some (_, (id, func)) =>
      obj ← invoke id func args;
      mret (static_cast obj)
  end.

(** [make_unique<ConcreteType>(args...)]. *)
Definition make_unique_of_type (T : concrete_type) (args : list argument) : M pointer :=
  let hash := hash_code T in
  reg ← get_registry UniqueOwnership (decay args);
  match detail.find hash reg with
  | None => throw (runtime_error "Registry not found")
  | Some (_, (id, func)) =>
      obj ← invoke id func args;
      mret (static_cast obj)
  end.

(** *** The fallback loops *)

(** [if(obj)] on a handle. *)
Definition non_null (obj : pointer) : bool :=
  match obj with Some _ => true | None => false end.

(** The loop [for(auto&& [_, func] : get_registry<RetType, Args...>())] of
    the four [try_make*], from the entries still to visit, the current
    state of the caller's pack [args] and the current [eptr].  The body
    calls [func(std::forward<Args>(args)...)] inside [try]; a result for
    which [usable] holds is returned at once ([inl]); an exception is
    stored in [eptr].  The call has forwarded the pack, whether [func]
    returned or raised: the next iteration runs on [forward_all args].
    [inr eptr]: the loop ran to its end. *)
Fixpoint try_each {R} (usable : R → bool) (args : list argument)
    (entries : partition R) (eptr : option exception) : M (R + option exception) :=
  match entries with
  | [] => mret (inr eptr)
  | (id, func) :: rest =>
      r ← try_catch (obj ← invoke id func args; mret (inl obj))
                    (λ e, mret (inr e));
      match r with
      | inl obj =>
          if usable obj then mret (inl obj)
          else try_each usable (forward_all args) rest eptr
      | inr e => try_each usable (forward_all args) rest (Some e)
      end
  end.

(** [try_make(args...)]: the body of the loop is [return func(args...)]. *)
Definition try_make (args : list argument) : M base_type :=
  reg ← get_registry Value (decay args);
  r ← try_each (λ _, true) args reg None;
  match r with
  | inl obj => mret obj
  | inr (Some eptr) => throw eptr
  | inr None =>
      match base_type_default with
      | Some dflt => mret dflt
      | None => throw (runtime_error "no valid registery is found")
      end
  end.

(** [try_make_ptr(args...)]. *)
Definition try_make_ptr (args : list argument) : M pointer :=
  reg ← get_registry RawHandle (decay args);
  r ← try_each non_null args reg None;
  match r with
  | inl obj => mret obj
  | inr (Some eptr) => throw eptr
  | inr None => mret None
  end.

(** [try_make_shared(args...)]. *)
Definition try_make_shared (args : list argument) : M pointer :=
  reg ← get_registry SharedOwnership (decay args);
  r ← try_each non_null args reg None;
  match r with
  | inl obj => mret obj
  | inr (Some eptr) => throw eptr
  | inr None => mret None
  end.

(** [try_make_unique(args...)]. *)
Definition try_make_unique (args : list argument) : M pointer :=
  reg ← get_registry UniqueOwnership (decay args);
  r ← try_each non_null args reg None;
  match r with
  | inl obj => mret obj
  | inr (Some eptr) => throw eptr
  | inr None => mret None
  end.

(** *** Vocabulary of the statements *)

(** The instantiation by key, the fallback and the success test of a
    shape: for [Value] a result that was returned, for the handle shapes a
    handle that is not null. *)
Definition make_for (s : Shape) : key_type → list argument → M (RetType s) :=
  match s with
  | Value => make
  | RawHandle => make_ptr
  | SharedOwnership => make_shared
  | UniqueOwnership => make_unique
  end.

Definition try_make_for (s : Shape) : list argument → M (RetType s) :=
  match s with
  | Value => try_make
  | RawHandle => try_make_ptr
  | SharedOwnership => try_make_shared
  | UniqueOwnership => try_make_unique
  end.

Definition designates_object (obj : pointer) : bool := bool_decide (is_Some obj).

Definition succeeds (s : Shape) : RetType s → bool :=
  match s with
  | Value => λ _, true
  | RawHandle => designates_object
  | SharedOwnership => designates_object
  | UniqueOwnership => designates_object
  end.

(** The initial state of a process in the world [w]. *)
Definition initial_state (w : world) : state := State empty_registries w [].

(** [st] with other registries. *)
Definition with_registry (r : registries) (st : state) : state :=
  State r (environment st) (invoked st).

(** The state a computation leaves. *)
Definition exec {A} (m : M A) (st : state) : state := (m st).2.

(** Ids are unique within every registry. *)
Definition unique_ids (r : registries) : Prop :=
  ∀ s Args, NoDup (detail.keys (g_registry r s Args)).

(** The producers of [entries], called in turn from [st], each on the pack
    as the calls before it left it, all raise: [Some (last, st')] gives the
    exception of the last one ([last] itself when there is none) and the
    state reached. *)
Fixpoint all_raise {R} (args : list argument) (entries : partition R)
    (last : option exception) (st : state) : option (option exception * state) :=
  match entries with
  | [] => Some (last, st)
  | (id, func) :: rest =>
      match invoke id func args st with
      | (raised e, st') => all_raise (forward_all args) rest (Some e) st'
      | (returned _, _) => None
      end
  end.

(** The producers of [entries], called in turn from [st], each on the pack
    as the calls before it left it, all fail to give a result accepted by
    [ok]: each raises, or returns a result that [ok] refuses.  [Some st']
    gives the state reached. *)
Fixpoint all_fail {R} (ok : R → bool) (args : list argument)
    (entries : partition R) (st : state) : option state :=
  match entries with
  | [] => Some st
  | (id, func) :: rest =>
      match invoke id func args st with
      | (raised _, st') => all_fail ok (forward_all args) rest st'
      | (returned obj, st') =>
          if ok obj then None else all_fail ok (forward_all args) rest st'
      end
  end.

(** The producers of [entries], called in turn from [st], each on the pack
    as the calls before it left it, all return a null handle without
    raising. *)
Fixpoint all_null (args : list argument) (entries : partition pointer)
    (st : state) : option state :=
  match entries with
  | [] => Some st
  | (id, func) :: rest =>
      match invoke id func args st with
      | (returned None, st') => all_null (forward_all args) rest st'
      | _ => None
      end
  end.

(** A registration keeps the order of every registry: its keys are as
    before, or the new id comes last. *)
Definition keeps_order (m : M unit) (hash : Z) : Prop :=
  ∀ st s Args,
    let before := detail.keys (g_registry (registry st) s Args) in
    let after := detail.keys (g_registry (registry (exec m st)) s Args) in
    after = before ∨ ((hash ∉ before) ∧ after = before ++ [hash]).

(** The registration [m] returns nothing, calls nothing, and assigns [func]
    to the id [hash] in the registry of the shape [s] and of the pack
    [Args]. *)
Definition stores (m : M unit) (s : Shape) (Args : signature) (hash : Z)
    (func : function (RetType s)) : Prop :=
  ∀ st,
    (m st).1 = returned ()
    ∧ environment (exec m st) = environment st
    ∧ invoked (exec m st) = invoked st
    ∧ g_registry (registry (exec m st)) s Args
      = detail.assign empty_function hash func (g_registry (registry st) s Args).

(** What a run shows outside the registries: the result, the world and the
    log of calls. *)
Definition observe {A} (r : outcome A * state) : outcome A * world * list Z :=
  (r.1, environment r.2, invoked r.2).

(** The instantiation by type identity of a shape; [None]: the [requires]
    clause of [make<ConcreteType>] fails. *)
Definition make_of_type_for (s : Shape) (T : concrete_type) (args : list argument)
  : option (M (RetType s)) :=
  match s with
  | Value => make_of_type T args
  | RawHandle => Some (make_ptr_of_type T args)
  | SharedOwnership => Some (make_shared_of_type T args)
  | UniqueOwnership => Some (make_unique_of_type T args)
  end.

(** The state after a call that the compiler may reject: a rejected call
    is no part of the program. *)
Definition exec_accepted {A} (call : option (M A)) (st : state) : state :=
  match call with
  | Some m => exec m st
  | None => st
  end.

(** The calls a program can make on the factory. *)
Inductive api_call :=
| call_register_function (ReturnType : return_type) (Args : signature)
    (key : key_type) (func : function (values ReturnType))
| call_register_type (T : concrete_type) (Args : signature) (key : key_type)
| call_register_type_by_typeid (T : concrete_type) (Args : signature)
| call_make (s : Shape) (key : key_type) (args : list argument)
| call_make_of_type (s : Shape) (T : concrete_type) (args : list argument)
| call_try_make (s : Shape) (args : list argument).

(** The state a call leaves, whether it returns or raises. *)
Definition perform (c : api_call) (st : state) : state :=
  match c with
  | call_register_function R Args key func =>
      exec_accepted (register_function R Args key func) st
  | call_register_type T Args key => exec_accepted (register_type T Args key) st
  | call_register_type_by_typeid T Args =>
      exec_accepted (register_type_by_typeid T Args) st
  | call_make s key args => exec (make_for s key args) st
  | call_make_of_type s T args => exec_accepted (make_of_type_for s T args) st
  | call_try_make s args => exec (try_make_for s args) st
  end.

(** The state after a sequence of calls. *)
Definition perform_all (calls : list api_call) (st : state) : state :=
  fold_left (λ st c, perform c st) calls st.

(** What the call of the target [f] of the entry [hash] gives from [st]:
    the result of [f] converted by [conv], the world as [f] left it, and
    one more call in the log. *)
Definition call_of {A B} (conv : A → B) (f : callable A) (hash : Z)
    (args : list argument) (st : state) : outcome B * state :=
  let '(r, w) := f args (environment st) in
  (outcome_map conv r, State (registry st) w (invoked st ++ [hash])).

End static_factory.

(** ** The instantiations of [test/tests.cpp] *)

Module tests.

(** A stand-in for [std::hash<std::string>], which the implementation
    chooses: a polynomial hash on 64 bits. *)
Definition string_hash (s : string) : Z :=
  fold_left (λ h c, (h * 31 + Z.of_N (Ascii.N_of_ascii c)) `mod` 2 ^ 64)
            (String.list_ascii_of_string s) 0.

(** The arguments of the test programs: an [int], or a [std::string]
    passed as an lvalue or as an rvalue.  Moving from a [std::string]
    leaves it empty, as the common implementations of the library do. *)
Inductive call_argument :=
| int_argument (n : Z)
| string_lvalue (text : string)
| string_rvalue (text : string).

Definition call_argument_type (arg : call_argument) : string :=
  match arg with
  | int_argument _ => "int"
  | string_lvalue _ => "std::string"
  | string_rvalue _ => "std::string"
  end.

Definition call_argument_after_forward (arg : call_argument) : call_argument :=
  match arg with
  | string_rvalue _ => string_rvalue ""
  | _ => arg
  end.

(** The text of the first argument of a pack that starts with a string. *)
Definition name_of (args : list call_argument) : string :=
  match args with
  | string_lvalue text :: _ => text
  | string_rvalue text :: _ => text
  | _ => ""
  end.

(** The objects of the classes derived from [BaseClass]. *)
Inductive BaseClass := ConcreteClassA_object | ConcreteClassB_object.

Definition getValue (obj : BaseClass) : Z :=
  match obj with
  | ConcreteClassA_object => 42
  | ConcreteClassB_object => 84
  end.

(** [static_factory<BaseClass, KeyType>].  [BaseClass] is abstract: it has
    no values of its own and no default constructor.  The world counts the
    objects constructed so far. *)
Definition class_factory (KeyType : Type) (hash : KeyType → Z)
    (of_size_t : option (Z → KeyType)) : Instantiation := {|
  base_type := Empty_set;
  key_type := KeyType;
  g_hash_function := hash;
  base_type_default := None;
  key_type_of_size_t := of_size_t;
  arg_type := string;
  argument := call_argument;
  decay_t := call_argument_type;
  after_forward := call_argument_after_forward;
  object := BaseClass;
  world := nat;
  thrown := string;
|}.

(** [static_factory<BaseClass>]: the keys are [std::string]s, to which a
    [size_t] does not convert. *)
Definition BaseClass_factory : Instantiation :=
  class_factory string string_hash None.

(** [static_factory<BaseClass, unsigned int>] where [size_t] has 64 bits and
    [unsigned int] 32: [std::hash<unsigned int>] returns its argument, and a
    [size_t] converts to the key type by dropping its upper half. *)
Definition uint_key_factory : Instantiation :=
  class_factory Z (λ key, key) (Some (λ h, h `mod` 2 ^ 32)).

(** [ConcreteClassA] and [ConcreteClassB]: derived from the abstract
    [BaseClass], hence not convertible to it.  Their [typeid] hashes stand
    for the ones the implementation computes from the type names. *)
Definition ConcreteClassA {KeyType hash of_size_t}
  : @concrete_type (class_factory KeyType hash of_size_t) :=
  @ConcreteType (class_factory KeyType hash of_size_t)
    (string_hash "14ConcreteClassA") true None
    (λ _ (w : nat), (returned ConcreteClassA_object, S w)).

Definition ConcreteClassB {KeyType hash of_size_t}
  : @concrete_type (class_factory KeyType hash of_size_t) :=
  @ConcreteType (class_factory KeyType hash of_size_t)
    (string_hash "14ConcreteClassB") true None
    (λ _ (w : nat), (returned ConcreteClassB_object, S w)).

(** [using pet = std::variant<dog, cat>]. *)
Inductive pet := dog (name : string) | cat (name : string).

(** [static_factory<pet>]: [pet()] holds a [dog]. *)
Definition pet_factory : Instantiation := {|
  base_type := pet;
  key_type := string;
  g_hash_function := string_hash;
  base_type_default := Some (dog "");
  key_type_of_size_t := None;
  arg_type := string;
  argument := call_argument;
  decay_t := call_argument_type;
  after_forward := call_argument_after_forward;
  object := pet;
  world := nat;
  thrown := string;
|}.

(** The structs [dog] and [cat]: convertible to [pet], not derived from it. *)
Definition dog_type : @concrete_type pet_factory :=
  @ConcreteType pet_factory (string_hash "3dog") false (Some (λ obj : pet, obj))
    (λ _ (w : nat), (returned (dog ""), S w)).

Definition cat_type : @concrete_type pet_factory :=
  @ConcreteType pet_factory (string_hash "3cat") false (Some (λ obj : pet, obj))
    (λ _ (w : nat), (returned (cat ""), S w)).

(** The return type [cat] of the lambda registered under ["my_cat"], and
    the lambda. *)
Definition returns_cat : @return_type pet_factory :=
  @ReturnTypeOf pet_factory pet false (Some (λ obj : pet, obj)) None None None.

Definition my_cat : @function pet_factory pet :=
  @target pet_factory pet (λ _ (w : nat), (returned (cat "Anber"), w)).

(** The states of the test cases: the registrations of [steps] run in
    order from [st]; a registration that the compiler rejects contributes
    nothing. *)
Definition run `{Instantiation} (steps : list (option (M unit))) (st : state) : state :=
  fold_left (λ st step, match step with Some m => exec m st | None => st end)
            steps st.

(** TEST_CASE("raw pointers") and its two siblings, after the two
    registrations. *)
Definition classes_registered : @state BaseClass_factory :=
  @run BaseClass_factory
    [register_type ConcreteClassA [] "ClassA"%string;
     register_type ConcreteClassB [] "ClassB"%string]
    (@initial_state BaseClass_factory 0%nat).

(** TEST_CASE("variant"), after the three registrations. *)
Definition pets_registered : @state pet_factory :=
  @run pet_factory
    [register_type dog_type [] "dog"%string;
     register_type cat_type [] "cat"%string;
     register_function returns_cat [] "my_cat"%string my_cat]
    (@initial_state pet_factory 0%nat).

(** Callables returning a [pet]: one that throws [what], one that returns
    a [cat] named [name]. *)
Definition throwing (what : string) : @function pet_factory pet :=
  @target pet_factory pet (λ _ (w : nat), (raised (@other_exception pet_factory what), S w)).

Definition cat_named (name : string) : @function pet_factory pet :=
  @target pet_factory pet (λ _ (w : nat), (returned (cat name), S w)).

(** Three producers of which the first throws, registered in this order. *)
Definition one_throws_two_return : @state pet_factory :=
  @run pet_factory
    [register_function returns_cat [] "P1"%string (throwing "P1 failed");
     register_function returns_cat [] "P2"%string (cat_named "P2");
     register_function returns_cat [] "P3"%string (cat_named "P3")]
    (@initial_state pet_factory 0%nat).


Definition no_cat_of_name : @function pet_factory pet :=
  @target pet_factory pet
    (λ args (w : nat),
       (raised (@other_exception pet_factory ("no cat named " +:+ name_of args)), S w)).


(** Two producers that take a [std::string] and both throw. *)
Definition named_two_throw : @state pet_factory :=
  @run pet_factory
    [register_function returns_cat ["std::string"%string] "P1"%string
       (throwing "P1 failed");
     register_function returns_cat ["std::string"%string] "P2"%string no_cat_of_name]
    (@initial_state pet_factory 0%nat).

(** Callables for [static_factory<BaseClass>] that return a [BaseClass*],
    a [std::shared_ptr<ConcreteClassA>] and a
    [std::unique_ptr<ConcreteClassA>]: none of these types is derived from
    [BaseClass] or convertible to a [BaseClass]. *)
Definition returns_BaseClass_ptr : @return_type BaseClass_factory :=
  @ReturnTypeOf BaseClass_factory (option BaseClass) false None
    (Some (λ p : option BaseClass, p)) None None.

Definition returns_shared_ptr : @return_type BaseClass_factory :=
  @ReturnTypeOf BaseClass_factory (option BaseClass) false None
    None (Some (λ p : option BaseClass, p)) None.

Definition returns_unique_ptr : @return_type BaseClass_factory :=
  @ReturnTypeOf BaseClass_factory (option BaseClass) false None
    None None (Some (λ p : option BaseClass, p)).

Definition new_ConcreteClassA : @function BaseClass_factory (option BaseClass) :=
  @target BaseClass_factory (option BaseClass)
    (λ _ (w : nat), (returned (Some ConcreteClassA_object), S w)).

(** A producer of handles that returns [nullptr]. *)
Definition returns_nullptr : @function BaseClass_factory (option BaseClass) :=
  @target BaseClass_factory (option BaseClass) (λ _ (w : nat), (returned None, S w)).

(** A producer of handles that returns [nullptr] when the name it receives
    is empty, and an object otherwise. *)
Definition nullptr_for_no_name : @function BaseClass_factory (option BaseClass) :=
  @target BaseClass_factory (option BaseClass)
    (λ args (w : nat),
       (returned (if decide (name_of args = ""%string) then None
                  else Some ConcreteClassA_object), S w)).

(** A state whose three handle registries hold a producer of [nullptr] and
    then [nullptr_for_no_name]. *)
Definition only_nullptr : @state BaseClass_factory :=
  let entries : @partition BaseClass_factory (option BaseClass) :=
    [(1, returns_nullptr); (2, nullptr_for_no_name)] in
  @State BaseClass_factory
    (@Registries BaseClass_factory (λ _, []) (λ _, entries) (λ _, entries) (λ _, entries))
    0%nat [].

(** [static_factory<BaseClass, unsigned int>] after
    [register_type<ConcreteClassA>()]. *)
Definition ConcreteClassA_by_typeid : @state uint_key_factory :=
  @run uint_key_factory
    [register_type_by_typeid ConcreteClassA []]
    (@initial_state uint_key_factory 0%nat).

(** [obj->getValue()] on the result of an instantiation. *)
Definition getValue_of (r : @outcome BaseClass_factory (option BaseClass)) : option Z :=
  match r with
  | returned (Some obj) => Some (getValue obj)
  | _ => None
  end.

(** [static_factory<BaseClass, size_t>] with the [std::hash<size_t>] that
    returns its argument. *)
Definition size_t_key_factory : Instantiation :=
  class_factory Z (λ key, key) (Some (λ h, h)).

(** A producer of handles that throws [what]. *)
Definition throwing_handle (what : string)
  : @function BaseClass_factory (option BaseClass) :=
  @target BaseClass_factory (option BaseClass)
    (λ _ (w : nat), (raised (@other_exception BaseClass_factory what), S w)).

(** A state whose three handle registries hold a producer that throws and
    then [nullptr_for_no_name]. *)
Definition throws_then_nullptr : @state BaseClass_factory :=
  let entries : @partition BaseClass_factory (option BaseClass) :=
    [(1, throwing_handle "P1 failed"); (2, nullptr_for_no_name)] in
  @State BaseClass_factory
    (@Registries BaseClass_factory (λ _, []) (λ _, entries) (λ _, entries) (λ _, entries))
    0%nat [].

End tests.

(** * Properties *)

(** ** The flat map *)

Section unordered_flat_map_facts.
Context {Key Value : Type} `{EqDecision Key}.
Implicit Types (key : Key) (value dflt : Value)
  (m_data : detail.unordered_flat_map Key Value).

Lemma find_nil key : detail.find (Value := Value) key [] = None.
Proof. reflexivity. Qed.

Lemma find_cons key p m_data :
  detail.find key (p :: m_data) =
  if decide (p.1 = key) then Some (0%nat, p)
  else prod_map S id <$> detail.find key m_data.
Proof. reflexivity. Qed.

Lemma assign_nil dflt key value :
  detail.assign dflt key value [] = [(key, value)].
Proof. reflexivity. Qed.

(** [m[key] = value] overwrites the first entry of [key] where it stands,
    and otherwise recurs on the rest of the vector. *)
Lemma assign_cons dflt key value p m_data :
  detail.assign dflt key value (p :: m_data) =
  if decide (p.1 = key) then (p.1, value) :: m_data
  else p :: detail.assign dflt key value m_data.
Proof.
  unfold detail.assign, detail.operator_index. rewrite find_cons.
  destruct (decide (p.1 = key)) as [Heq|Hne]; [reflexivity|].
  destruct (detail.find key m_data) as [[it q]|]; reflexivity.
Qed.

Lemma find_None_keys key m_data :
  detail.find key m_data = None ↔ key ∉ detail.keys m_data.
Proof.
  unfold detail.find, detail.keys. rewrite list_find_None, Forall_forall.
  rewrite list_elem_of_fmap. split.
  - intros Hall (p & -> & Hin). by apply (Hall p).
  - intros Hnot p Hin Heq. apply Hnot. by exists p.
Qed.

Lemma find_Some_key key m_data it p :
  detail.find key m_data = Some (it, p) → p.1 = key ∧ m_data !! it = Some p.
Proof. intros (? & ? & _)%list_find_Some. done. Qed.

(** A fresh key is appended at the end: the order of iteration is the
    order of first insertion. *)
Lemma assign_fresh dflt key value m_data :
  detail.find key m_data = None →
  detail.assign dflt key value m_data = m_data ++ [(key, value)].
Proof.
  induction m_data as [|p m_data IH]; [done|].
  rewrite find_cons, assign_cons.
  destruct (decide (p.1 = key)); [done|].
  destruct (detail.find key m_data); [done|]. intros _. by rewrite IH.
Qed.

(** After [m[key] = value], [find(key)] designates [value]. *)
Lemma find_assign dflt key value m_data :
  ∃ it, detail.find key (detail.assign dflt key value m_data)
        = Some (it, (key, value)).
Proof.
  induction m_data as [|p m_data [it IH]].
  - exists 0%nat. rewrite assign_nil, find_cons. simpl. by rewrite decide_True.
  - rewrite assign_cons. destruct (decide (p.1 = key)) as [Heq|Hne].
    + exists 0%nat. rewrite find_cons. simpl. rewrite decide_True by done.
      by rewrite Heq.
    + exists (S it). rewrite find_cons, decide_False by done. by rewrite IH.
Qed.

(** The other keys are found where and as they were. *)
Lemma find_assign_ne dflt key key' value m_data :
  key ≠ key' →
  detail.find key' (detail.assign dflt key value m_data)
  = detail.find key' m_data.
Proof.
  intros Hne. induction m_data as [|p m_data IH].
  - rewrite assign_nil, find_cons. simpl. by rewrite decide_False.
  - rewrite assign_cons. destruct (decide (p.1 = key)) as [Heq|Hne'].
    + rewrite !find_cons. simpl. rewrite !decide_False by congruence. done.
    + rewrite !find_cons. destruct (decide (p.1 = key')); [done|]. by rewrite IH.
Qed.

Lemma keys_assign dflt key value m_data :
  detail.keys (detail.assign dflt key value m_data) =
  if decide (key ∈ detail.keys m_data) then detail.keys m_data
  else detail.keys m_data ++ [key].
Proof.
  induction m_data as [|p m_data IH].
  - rewrite assign_nil. cbn. rewrite decide_False; [done|]. apply not_elem_of_nil.
  - rewrite assign_cons. destruct (decide (p.1 = key)) as [Heq|Hne].
    + cbn. rewrite decide_True; [done|]. rewrite Heq. apply list_elem_of_here.
    + cbn. fold (detail.keys (detail.assign dflt key value m_data)).
      fold (detail.keys m_data). rewrite IH.
      destruct (decide (key ∈ detail.keys m_data)) as [Hin|Hnin].
      * rewrite decide_True; [done|]. by apply list_elem_of_further.
      * rewrite decide_False; [done|].
        intros [?|?]%elem_of_cons; congruence.
Qed.

Lemma NoDup_keys_assign dflt key value m_data :
  NoDup (detail.keys m_data) →
  NoDup (detail.keys (detail.assign dflt key value m_data)).
Proof.
  intros Hnd. rewrite keys_assign.
  destruct (decide (key ∈ detail.keys m_data)); [done|].
  apply NoDup_app. split_and!; [done| |apply NoDup_singleton].
  intros k Hk ->%list_elem_of_singleton. done.
Qed.

Lemma count_cons key p m_data :
  detail.count key (p :: m_data) =
  if decide (p.1 = key) then S (detail.count key m_data)
  else detail.count key m_data.
Proof.
  unfold detail.count. rewrite filter_cons.
  destruct (decide (p.1 = key)); reflexivity.
Qed.

Lemma count_assign dflt key value m_data :
  detail.count key (detail.assign dflt key value m_data)
  = Nat.max 1 (detail.count key m_data).
Proof.
  induction m_data as [|p m_data IH].
  - rewrite assign_nil, count_cons. simpl. by rewrite decide_True.
  - rewrite assign_cons. destruct (decide (p.1 = key)) as [Heq|Hne].
    + rewrite !count_cons. simpl. rewrite !decide_True by done. lia.
    + rewrite !count_cons, !decide_False by done. done.
Qed.

Lemma count_absent key m_data :
  key ∉ detail.keys m_data → detail.count key m_data = 0%nat.
Proof.
  induction m_data as [|p m_data IH]; [done|].
  intros Hnin. change (key ∉ p.1 :: detail.keys m_data) in Hnin.
  apply not_elem_of_cons in Hnin as [Hne Hnin].
  rewrite count_cons, decide_False by congruence. auto.
Qed.

Lemma count_NoDup key m_data :
  NoDup (detail.keys m_data) → (detail.count key m_data ≤ 1)%nat.
Proof.
  induction m_data as [|p m_data IH]; [unfold detail.count; simpl; lia|].
  intros Hnd. change (NoDup (p.1 :: detail.keys m_data)) in Hnd.
  apply NoDup_cons in Hnd as [Hnin Hnd].
  rewrite count_cons. destruct (decide (p.1 = key)) as [Heq|Hne]; [|auto].
  rewrite count_absent; [lia|]. by rewrite <- Heq.
Qed.

(** With unique keys, [m[key] = value] leaves exactly one entry of [key]. *)
Lemma count_assign_NoDup dflt key value m_data :
  NoDup (detail.keys m_data) →
  detail.count key (detail.assign dflt key value m_data) = 1%nat.
Proof.
  intros Hnd%(count_NoDup key). rewrite count_assign. lia.
Qed.

End unordered_flat_map_facts.

(** ** The registries and the monad *)

Section static_factory_facts.
Context `{Instantiation}.

Lemma g_registry_set_eq r s p : g_registry (set_g_registry r s p) s = p.
Proof. by destruct s. Qed.

Lemma g_registry_set_ne r s s' p :
  s ≠ s' → g_registry (set_g_registry r s p) s' = g_registry r s'.
Proof. by destruct s, s'. Qed.

(** The registry that [get_registry<RetType, Args...>()[hash] = func]
    writes. *)
Lemma registry_assign_eq s Args hash func st :
  g_registry (registry (exec (registry_assign s Args hash func) st)) s Args
  = detail.assign empty_function hash func (g_registry (registry st) s Args).
Proof.
  unfold exec, registry_assign. simpl.
  by rewrite g_registry_set_eq, fn_lookup_insert.
Qed.

(** Every other registry is left as it was. *)
Lemma registry_assign_ne s Args hash func st s' Args' :
  s ≠ s' ∨ Args ≠ Args' →
  g_registry (registry (exec (registry_assign s Args hash func) st)) s' Args'
  = g_registry (registry st) s' Args'.
Proof.
  unfold exec, registry_assign. simpl. intros Hne.
  destruct (decide (s = s')) as [<-|Hs].
  - rewrite g_registry_set_eq, fn_lookup_insert_ne; [done|]. by destruct Hne.
  - by rewrite g_registry_set_ne.
Qed.

Lemma registry_assign_returns s Args hash func st :
  (registry_assign s Args hash func st).1 = returned ().
Proof. reflexivity. Qed.

Lemma registry_assign_environment s Args hash func st :
  environment (exec (registry_assign s Args hash func) st) = environment st.
Proof. reflexivity. Qed.

Lemma registry_assign_invoked s Args hash func st :
  invoked (exec (registry_assign s Args hash func) st) = invoked st.
Proof. reflexivity. Qed.

(** The keys of any registry after an assignment: as before, or with the
    new id at the end. *)
Lemma registry_assign_keys s Args hash func st s' Args' :
  let before := detail.keys (g_registry (registry st) s' Args') in
  let after :=
    detail.keys (g_registry (registry (exec (registry_assign s Args hash func) st)) s' Args') in
  after = before ∨ ((hash ∉ before) ∧ after = before ++ [hash]).
Proof.
  intros before after. subst before after.
  destruct (decide (s = s' ∧ Args = Args')) as [[<- <-]|Hne].
  - rewrite registry_assign_eq, keys_assign. case_decide; auto.
  - rewrite registry_assign_ne; [auto|].
    destruct (decide (s = s')); [right|left]; naive_solver.
Qed.

Lemma registry_assign_unique_ids s Args hash func st :
  unique_ids (registry st) →
  unique_ids (registry (exec (registry_assign s Args hash func) st)).
Proof.
  intros Hu s' Args'.
  destruct (decide (s = s' ∧ Args = Args')) as [[<- <-]|Hne].
  - rewrite registry_assign_eq. by apply NoDup_keys_assign.
  - rewrite registry_assign_ne; [done|].
    destruct (decide (s = s')); [right|left]; naive_solver.
Qed.

Lemma unique_ids_empty : unique_ids empty_registries.
Proof. intros s Args. destruct s; apply NoDup_nil_2. Qed.

(** A call of an entry touches neither the registries nor the older part
    of the log, and is logged. *)
Lemma invoke_frame {R} id (func : function R) args st r st' :
  invoke id func args st = (r, st') →
  registry st' = registry st ∧ invoked st' = invoked st ++ [id].
Proof.
  unfold invoke. destruct func as [|f].
  - by intros [= <- <-].
  - destruct (f args (environment st)) as [r' w]. by intros [= <- <-].
Qed.

(** A call does not look at the registries. *)
Lemma invoke_with_registry {R} id (func : function R) args st r' :
  invoke id func args (with_registry r' st)
  = ((invoke id func args st).1, with_registry r' (invoke id func args st).2).
Proof.
  unfold invoke, with_registry. destruct func as [|f]; simpl; [done|].
  by destruct (f args (environment st)).
Qed.

(** The four instantiations by key are one lookup followed by one call. *)
Lemma make_for_unfold s key args st :
  make_for s key args st =
  match detail.find (g_hash_function key) (g_registry (registry st) s (decay args)) with
  | None => (raised RegistryMiss, st)
  | Some (_, (id, func)) => invoke id func args st
  end.
Proof.
  destruct s; simpl;
    unfold make, make_ptr, make_shared, make_unique, get_registry, mbind, M_bind;
    simpl;
    match goal with |- context [detail.find ?k ?m] =>
      destruct (detail.find k m) as [[? [? ?]]|] end; reflexivity.
Qed.

Lemma make_for_miss s key args st :
  detail.find (g_hash_function key) (g_registry (registry st) s (decay args)) = None →
  make_for s key args st = (raised RegistryMiss, st).
Proof. intros Hmiss. by rewrite make_for_unfold, Hmiss. Qed.

(** *** The fallback loop *)

Lemma try_each_cons {R} (ok : R → bool) args id func rest eptr st :
  try_each ok args ((id, func) :: rest) eptr st =
  match invoke id func args st with
  | (returned obj, st') =>
      if ok obj then (returned (inl obj), st')
      else try_each ok (forward_all args) rest eptr st'
  | (raised e, st') => try_each ok (forward_all args) rest (Some e) st'
  end.
Proof.
  simpl. unfold mbind, M_bind, try_catch, mret, M_ret.
  destruct (invoke id func args st) as [[obj|e] st']; [|done].
  by destruct (ok obj).
Qed.

Lemma forwarded_S n args : forwarded n (forward_all args) = forwarded (S n) args.
Proof.
  unfold forwarded. induction n as [|n IH]; [done|]. simpl in *. by rewrite IH.
Qed.

(** The loop passes over a prefix of failing producers; what follows runs
    on the pack forwarded once per producer passed. *)
Lemma try_each_all_fail {R} (ok : R → bool) args pre rest eptr st st1 :
  all_fail ok args pre st = Some st1 →
  ∃ eptr', try_each ok args (pre ++ rest) eptr st
           = try_each ok (forwarded (length pre) args) rest eptr' st1.
Proof.
  revert args eptr st. induction pre as [|[id func] pre IH]; intros args eptr st.
  - intros [= <-]. by exists eptr.
  - cbn [all_fail app length]. rewrite try_each_cons, <- forwarded_S.
    destruct (invoke id func args st) as [[obj|e] st'].
    + destruct (ok obj); [done|]. apply IH.
    + apply IH.
Qed.


(** When every producer raises, the loop ends with the last exception. *)
Lemma try_each_all_raise {R} (ok : R → bool) args entries last st last' st' :
  all_raise args entries last st = Some (last', st') →
  try_each ok args entries last st = (returned (inr last'), st').
Proof.
  revert args last st.
  induction entries as [|[id func] entries IH]; intros args last st.
  - by intros [= <- <-].
  - cbn [all_raise]. rewrite try_each_cons.
    destruct (invoke id func args st) as [[obj|e] st1]; [done|]. apply IH.
Qed.

Lemma all_raise_frame {R} args (entries : partition R) last st last' st' :
  all_raise args entries last st = Some (last', st') →
  registry st' = registry st ∧ invoked st' = invoked st ++ detail.keys entries.
Proof.
  revert args last st.
  induction entries as [|[id func] entries IH]; intros args last st.
  - intros [= <- <-]. by rewrite app_nil_r.
  - cbn [all_raise]. destruct (invoke id func args st) as [[obj|e] st1] eqn:Hinv;
      [done|].
    apply invoke_frame in Hinv as [Hreg Hlog].
    intros [-> ->]%IH. rewrite Hreg, Hlog, <- app_assoc. done.
Qed.

Lemma all_raise_nonempty {R} args (entries : partition R) last st e st' :
  entries ≠ [] →
  all_raise args entries last st = Some (e, st') → is_Some e.
Proof.
  revert args last st.
  induction entries as [|[id func] entries IH]; intros args last st;
    [done|]. intros _. cbn [all_raise].
  destruct (invoke id func args st) as [[obj|e1] st1]; [done|].
  destruct entries as [|p entries].
  - intros [= <- <-]. by eexists.
  - by apply IH.
Qed.

(** When every producer returns a null handle, the loop ends with [eptr]
    as it was. *)
Lemma try_each_all_null args entries eptr st st' :
  all_null args entries st = Some st' →
  try_each non_null args entries eptr st = (returned (inr eptr), st').
Proof.
  revert args st. induction entries as [|[id func] entries IH]; intros args st.
  - by intros [= <-].
  - cbn [all_null]. rewrite try_each_cons.
    destruct (invoke id func args st) as [[[obj|]|e] st1]; [done| |done].
    apply IH.
Qed.

Lemma all_null_frame args entries st st' :
  all_null args entries st = Some st' →
  registry st' = registry st ∧ invoked st' = invoked st ++ detail.keys entries.
Proof.
  revert args st. induction entries as [|[id func] entries IH]; intros args st.
  - intros [= <-]. by rewrite app_nil_r.
  - cbn [all_null]. destruct (invoke id func args st) as [[[obj|]|e] st1] eqn:Hinv;
      [done| |done].
    apply invoke_frame in Hinv as [Hreg Hlog].
    intros [-> ->]%IH. rewrite Hreg, Hlog, <- app_assoc. done.
Qed.

(** The loop depends on its test only through the values of the test. *)
Lemma try_each_ext {R} (ok ok' : R → bool) args entries eptr st :
  (∀ obj, ok obj = ok' obj) →
  try_each ok args entries eptr st = try_each ok' args entries eptr st.
Proof.
  intros Hok. revert args eptr st.
  induction entries as [|[id func] entries IH]; intros args eptr st; [done|].
  rewrite !try_each_cons.
  destruct (invoke id func args st) as [[obj|e] st']; [|apply IH].
  rewrite <- Hok. destruct (ok obj); [done|apply IH].
Qed.

(** [if(obj)] holds exactly of the handles that designate an object. *)
Lemma non_null_designates_object obj : non_null obj = designates_object obj.
Proof. by destruct obj. Qed.

Lemma try_each_succeeds s args entries eptr st :
  try_each (succeeds s) args entries eptr st
  = try_each (match s return RetType s → bool with
              | Value => λ _, true
              | RawHandle => non_null
              | SharedOwnership => non_null
              | UniqueOwnership => non_null
              end) args entries eptr st.
Proof.
  apply try_each_ext. intros obj.
  destruct s; simpl; by rewrite ?non_null_designates_object.
Qed.


Lemma try_make_for_rethrow s args st e st' :
  try_each (succeeds s) args (g_registry (registry st) s (decay args)) None st
  = (returned (inr (Some e)), st') →
  try_make_for s args st = (raised e, st').
Proof.
  rewrite try_each_succeeds.
  destruct s; simpl; intros Hloop;
    unfold try_make, try_make_ptr, try_make_shared, try_make_unique,
      get_registry, mbind, M_bind; simpl; by rewrite Hloop.
Qed.

(** The instantiations and the fallbacks never write a registry. *)
Lemma make_for_registry s key args st :
  registry (exec (make_for s key args) st) = registry st.
Proof.
  unfold exec. rewrite make_for_unfold.
  destruct (detail.find _ _) as [[it [id func]]|]; [|done].
  destruct (invoke id func args st) as [r st'] eqn:Hinv.
  apply invoke_frame in Hinv as [Hreg _]. exact Hreg.
Qed.

Lemma try_each_registry {R} (ok : R → bool) args entries eptr st :
  registry (exec (try_each ok args entries eptr) st) = registry st.
Proof.
  revert args eptr st.
  induction entries as [|[id func] entries IH]; intros args eptr st; [done|].
  unfold exec in *. rewrite try_each_cons.
  destruct (invoke id func args st) as [[obj|e] st'] eqn:Hinv;
    apply invoke_frame in Hinv as [<- _]; [|apply IH].
  destruct (ok obj); [done|apply IH].
Qed.

Lemma try_make_for_registry s args st :
  registry (exec (try_make_for s args) st) = registry st.
Proof.
  pose proof (try_each_registry (succeeds s) args
    (g_registry (registry st) s (decay args)) None st) as Hloop.
  unfold exec in *. rewrite try_each_succeeds in Hloop.
  destruct s; simpl in *;
    unfold try_make, try_make_ptr, try_make_shared, try_make_unique,
      get_registry, mbind, M_bind; simpl;
    destruct (try_each _ args _ None st) as [[[obj|[e|]]|e] st'];
    simpl in *; try done.
  by destruct base_type_default.
Qed.

End static_factory_facts.

(** ** Instantiation by key *)

Section direct_instantiation.
Context `{Instantiation}.

(** C3.  Miss semantics.  When the hash of the key has no entry in the
    registry of the shape and of the argument types of the call, each of
    [make], [make_ptr], [make_shared] and [make_unique] raises the
    "Registry not found" error and leaves the whole state as it was: the
    registries are unchanged, the world is untouched and no entry was
    called. *)
Theorem make_miss (s : Shape) (key : key_type) (args : list argument) (st : state) :
  detail.find (g_hash_function key) (g_registry (registry st) s (decay args)) = None →
  make_for s key args st = (raised RegistryMiss, st).
Proof.
  intros Hmiss. rewrite make_for_unfold.
  destruct (detail.find _ _) as [[it [id func]]|]; [discriminate Hmiss|].
  reflexivity.
Qed.

(** C8.  Failure of the producer in a direct call.  When the key resolves
    to an entry and the call of its producer raises [e], each of [make],
    [make_ptr], [make_shared] and [make_unique] raises that same [e] and
    leaves the state the producer left; the entry of the key is the only
    one called, and the registries are unchanged. *)
Theorem make_propagates_failure (s : Shape) (key : key_type)
    (args : list argument) (st st' : state) (it : nat) (id : Z)
    (func : function (RetType s)) (e : exception) :
  detail.find (g_hash_function key) (g_registry (registry st) s (decay args))
    = Some (it, (id, func)) →
  invoke id func args st = (raised e, st') →
  make_for s key args st = (raised e, st')
  ∧ invoked st' = invoked st ++ [g_hash_function key]
  ∧ registry st' = registry st.
Proof.
  intros Hfind Hinv. rewrite make_for_unfold, Hfind. split; [done|].
  apply find_Some_key in Hfind as [Hid _]. simpl in Hid. subst id.
  apply invoke_frame in Hinv as [-> ->]. done.
Qed.

End direct_instantiation.

(** ** The fallback *)

Section fallback.
Context `{Instantiation}.

(** C5.  [try_make] over an empty registry: it returns [base_type()] when
    [base_type] is default constructible and raises the "no valid registery
    is found" error otherwise; in both cases the state is as it was, so no
    producer was called. *)
Theorem try_make_empty (args : list argument) (st : state) :
  g_registry (registry st) Value (decay args) = [] →
  try_make args st =
  match base_type_default with
  | Some dflt => (returned dflt, st)
  | None => (raised NoRegistryAvailable, st)
  end.
Proof.
  intros Hempty. unfold try_make, get_registry, mbind, M_bind. simpl in *.
  rewrite Hempty. simpl. by destruct base_type_default.
Qed.

(** C7.  All producers raise.  When the producers of the registry, called
    in turn in its order, each on the caller's pack as the calls before it
    left it, all raise, and [e] is what the last of them raised, each of
    [try_make], [try_make_ptr], [try_make_shared] and [try_make_unique]
    raises [e]; every entry was called once, in order.  (That the run
    yields a last exception says that the registry is not empty.) *)
Theorem try_make_all_raise (s : Shape) (args : list argument) (st st' : state)
    (e : exception) :
  all_raise args (g_registry (registry st) s (decay args)) None st = Some (Some e, st') →
  try_make_for s args st = (raised e, st')
  ∧ g_registry (registry st) s (decay args) ≠ []
  ∧ invoked st' = invoked st ++ detail.keys (g_registry (registry st) s (decay args)).
Proof.
  intros Hall. split_and!.
  - apply try_make_for_rethrow. by apply try_each_all_raise.
  - intros Hnil. rewrite Hnil in Hall. discriminate Hall.
  - by apply all_raise_frame in Hall as [_ ?].
Qed.

(** C10.  All producers return null.  Over a registry that is not empty
    and whose producers, called in turn, each on the caller's pack as the
    calls before it left it, all return a null handle without raising,
    [try_make_ptr], [try_make_shared] and [try_make_unique] return the null
    handle: nothing is raised. *)
Theorem try_make_handle_all_null (args : list argument) (st st' : state)
    (entries : partition pointer) :
  entries ≠ [] →
  all_null args entries st = Some st' →
  (ptr_registry (registry st) (decay args) = entries →
     try_make_ptr args st = (returned None, st'))
  ∧ (shared_registry (registry st) (decay args) = entries →
     try_make_shared args st = (returned None, st'))
  ∧ (unique_registry (registry st) (decay args) = entries →
     try_make_unique args st = (returned None, st')).
Proof.
  intros _ Hnull. split_and!; intros Hreg;
    unfold try_make_ptr, try_make_shared, try_make_unique,
      get_registry, mbind, M_bind; simpl; rewrite Hreg;
    by rewrite (try_each_all_null _ _ _ _ _ Hnull).
Qed.

End fallback.

(** ** Registration *)

Section registration.
Context `{Instantiation}.

Lemma registry_assign_then {A} s Args hash func (k : M A) st :
  (registry_assign s Args hash func;; k) st
  = k (exec (registry_assign s Args hash func) st).
Proof. reflexivity. Qed.

(** What an accepted [register_function] runs: one assignment, into one
    registry. *)
Lemma register_function_accepted R Args key func m :
  register_function R Args key func = Some m →
  ∃ s (conv : values R → RetType s),
    m = registry_assign s Args (g_hash_function key) (function_map conv func).
Proof.
  unfold register_function, register_function_impl.
  destruct (is_related_v _ _); [|done].
  destruct (ret_to_base_type R) as [conv|];
    [intros [= <-]; by exists Value, conv|].
  destruct (ret_to_pointer R) as [conv|];
    [intros [= <-]; by exists RawHandle, conv|].
  destruct (ret_shared_ptr_of_derived R) as [conv|];
    [intros [= <-]; by exists SharedOwnership, conv|].
  destruct (ret_unique_ptr_of_derived R) as [conv|];
    [intros [= <-]; by exists UniqueOwnership, conv|done].
Qed.

Lemma register_function_value R Args key func conv :
  ret_to_base_type R = Some conv →
  register_function R Args key func
  = Some (registry_assign Value Args (g_hash_function key) (function_map conv func)).
Proof.
  intros Hconv. unfold register_function, register_function_impl, is_related_v.
  rewrite Hconv. simpl. by rewrite orb_true_r.
Qed.

Lemma register_type_convertible T Args key conv :
  to_base_type T = Some conv →
  register_type T Args key
  = Some (registry_assign Value Args (g_hash_function key)
            (target (callable_map conv (constructor T)))).
Proof.
  intros Hconv. unfold register_type, is_related_v.
  rewrite Hconv. simpl. by rewrite orb_true_r.
Qed.

Lemma register_type_derived T Args key :
  to_base_type T = None → is_base_of T = true →
  register_type T Args key
  = Some (registry_assign RawHandle Args (g_hash_function key) (new_object T);;
          registry_assign SharedOwnership Args (g_hash_function key) (new_object T);;
          registry_assign UniqueOwnership Args (g_hash_function key) (new_object T)).
Proof.
  intros Hconv Hbase. unfold register_type, is_related_v.
  by rewrite Hconv, Hbase.
Qed.

Lemma register_type_accepted T Args key m :
  register_type T Args key = Some m →
  (∃ conv, to_base_type T = Some conv) ∨ (to_base_type T = None ∧ is_base_of T = true).
Proof.
  unfold register_type. destruct (is_related_v _ _); [|done].
  destruct (to_base_type T) as [conv|]; [eauto|].
  destruct (is_base_of T); [auto|done].
Qed.

Lemma register_function_keeps_order R Args key func m :
  register_function R Args key func = Some m →
  keeps_order m (g_hash_function key).
Proof.
  intros (s & conv & ->)%register_function_accepted st s' Args'.
  apply registry_assign_keys.
Qed.

Lemma register_type_keeps_order T Args key m :
  register_type T Args key = Some m →
  keeps_order m (g_hash_function key).
Proof.
  intros Hm. destruct (register_type_accepted _ _ _ _ Hm) as [[conv Hc]|[Hc Hb]].
  - rewrite (register_type_convertible _ _ _ _ Hc) in Hm. injection Hm as <-.
    intros st s' Args'. apply registry_assign_keys.
  - rewrite (register_type_derived _ _ _ Hc Hb) in Hm. injection Hm as <-.
    intros st s' Args'. unfold exec. rewrite !registry_assign_then.
    fold (exec (registry_assign UniqueOwnership Args (g_hash_function key) (new_object T))
            (exec (registry_assign SharedOwnership Args (g_hash_function key) (new_object T))
               (exec (registry_assign RawHandle Args (g_hash_function key) (new_object T)) st))).
    destruct s'.
    + rewrite !registry_assign_ne by (left; done). by left.
    + rewrite !(registry_assign_ne UniqueOwnership), !(registry_assign_ne SharedOwnership)
        by (left; done).
      apply registry_assign_keys.
    + rewrite !(registry_assign_ne UniqueOwnership) by (left; done).
      pose proof (registry_assign_keys SharedOwnership Args (g_hash_function key)
        (new_object T)
        (exec (registry_assign RawHandle Args (g_hash_function key) (new_object T)) st)
        SharedOwnership Args') as Hk. cbv zeta in Hk.
      rewrite !(registry_assign_ne RawHandle _ _ _ _ SharedOwnership) in Hk by (left; done).
      exact Hk.
    + pose proof (registry_assign_keys UniqueOwnership Args (g_hash_function key)
        (new_object T)
        (exec (registry_assign SharedOwnership Args (g_hash_function key) (new_object T))
          (exec (registry_assign RawHandle Args (g_hash_function key) (new_object T)) st))
        UniqueOwnership Args') as Hk. cbv zeta in Hk.
      rewrite !(registry_assign_ne SharedOwnership _ _ _ _ UniqueOwnership),
        !(registry_assign_ne RawHandle _ _ _ _ UniqueOwnership) in Hk by (left; done).
      exact Hk.
Qed.

(** Registrations keep the ids of every registry unique: with
    [unique_ids_empty], they are unique in every state that registrations
    reach from the initial one. *)
Lemma register_function_unique_ids R Args key func m st :
  register_function R Args key func = Some m →
  unique_ids (registry st) → unique_ids (registry (exec m st)).
Proof.
  intros (s & conv & ->)%register_function_accepted. apply registry_assign_unique_ids.
Qed.

Lemma register_type_unique_ids T Args key m st :
  register_type T Args key = Some m →
  unique_ids (registry st) → unique_ids (registry (exec m st)).
Proof.
  intros Hm Hu. destruct (register_type_accepted _ _ _ _ Hm) as [[conv Hc]|[Hc Hb]].
  - rewrite (register_type_convertible _ _ _ _ Hc) in Hm. injection Hm as <-.
    by apply registry_assign_unique_ids.
  - rewrite (register_type_derived _ _ _ Hc Hb) in Hm. injection Hm as <-.
    unfold exec. rewrite !registry_assign_then.
    by do 3 apply registry_assign_unique_ids.
Qed.

End registration.

(** ** Order of the fallback *)

Section fallback_order.
Context `{Instantiation}.


End fallback_order.

(** ** Shapes *)

Section shapes.
Context `{Instantiation}.

(** A lookup that follows [m[hash] = func] calls [func]. *)
Lemma make_for_assigned s key args st func m_data :
  g_registry (registry st) s (decay args)
  = detail.assign empty_function (g_hash_function key) func m_data →
  make_for s key args st = invoke (g_hash_function key) func args st.
Proof.
  intros Hreg. rewrite make_for_unfold, Hreg.
  by destruct (find_assign empty_function (g_hash_function key) func m_data) as [it ->].
Qed.

(** An instantiation of one shape reads the registry of that shape and of
    its argument types, and nothing else of the registries. *)
Lemma make_for_with_registry s key args st r' :
  g_registry r' s (decay args) = g_registry (registry st) s (decay args) →
  make_for s key args (with_registry r' st)
  = ((make_for s key args st).1, with_registry r' (make_for s key args st).2).
Proof.
  intros Hreg. rewrite !make_for_unfold. simpl. rewrite Hreg.
  destruct (detail.find _ _) as [[it [id func]]|]; [|done].
  apply invoke_with_registry.
Qed.

(** The state after the handle branch of [register_type]. *)
Lemma register_type_derived_effect T Args key st :
  let hash := g_hash_function key in
  let m := (registry_assign RawHandle Args hash (new_object T);;
            registry_assign SharedOwnership Args hash (new_object T);;
            registry_assign UniqueOwnership Args hash (new_object T)) in
  let r := registry st in
  m st =
  (returned (),
   State (Registries
            (value_registry r)
            (<[Args := detail.assign empty_function hash (new_object T) (ptr_registry r Args)]>
               (ptr_registry r))
            (<[Args := detail.assign empty_function hash (new_object T) (shared_registry r Args)]>
               (shared_registry r))
            (<[Args := detail.assign empty_function hash (new_object T) (unique_registry r Args)]>
               (unique_registry r)))
         (environment st) (invoked st)).
Proof. reflexivity. Qed.

(** C6.  Shape isolation.  Let [A] be derived from [base_type] and not
    convertible to it.  [register_type<A, Args...>(key)] is accepted,
    returns nothing, calls nothing, and writes the producer of [A] under
    the hash of [key] into the registries of [RawHandle], [SharedOwnership]
    and [UniqueOwnership] for [Args]; the [Value] registries and the
    registries of every other argument pack are as before.  Afterwards
    [make_ptr], [make_shared] and [make_unique] under [key] call that
    producer, and [make] under [key] still raises the "Registry not found"
    error when the [Value] registry had no entry for the hash.  In any
    state, an instantiation of one shape depends on the registries only
    through the registry of its own shape: replacing all the others changes
    neither its result nor its effects. *)
Theorem register_type_shape_isolation (A : concrete_type) (Args : signature)
    (key : key_type) (args : list argument) (st : state) :
  to_base_type A = None →
  is_base_of A = true →
  decay args = Args →
  let hash := g_hash_function key in
  (∃ m, register_type A Args key = Some m
     ∧ let st' := exec m st in
       m st = (returned (), st')
       ∧ environment st' = environment st
       ∧ invoked st' = invoked st
       ∧ value_registry (registry st') = value_registry (registry st)
       ∧ (∀ s Args', Args' ≠ Args →
            g_registry (registry st') s Args' = g_registry (registry st) s Args')
       ∧ ptr_registry (registry st') Args
         = detail.assign empty_function hash (new_object A)
             (ptr_registry (registry st) Args)
       ∧ shared_registry (registry st') Args
         = detail.assign empty_function hash (new_object A)
             (shared_registry (registry st) Args)
       ∧ unique_registry (registry st') Args
         = detail.assign empty_function hash (new_object A)
             (unique_registry (registry st) Args)
       ∧ make_ptr key args st' = invoke hash (new_object A) args st'
       ∧ make_shared key args st' = invoke hash (new_object A) args st'
       ∧ make_unique key args st' = invoke hash (new_object A) args st'
       ∧ (detail.find hash (value_registry (registry st) Args) = None →
            make key args st' = (raised RegistryMiss, st')))
  ∧ (∀ (s : Shape) (r' : registries) (st0 : state),
       g_registry r' s (decay args) = g_registry (registry st0) s (decay args) →
       make_for s key args (with_registry r' st0)
       = ((make_for s key args st0).1,
          with_registry r' (make_for s key args st0).2)).
Proof.
  intros Hconv Hbase HArgs hash. split; [|intros; by apply make_for_with_registry].
  eexists. split; [by apply register_type_derived|].
  cbv zeta. unfold exec. rewrite register_type_derived_effect. cbn [fst snd].
  fold hash. cbn [registry environment invoked value_registry ptr_registry
                  shared_registry unique_registry].
  rewrite !fn_lookup_insert.
  split_and!; try done.
  - intros s Args' Hne. destruct s; cbn; by rewrite ?fn_lookup_insert_ne.
  - apply (make_for_assigned RawHandle) with (m_data := ptr_registry (registry st) Args).
    cbn. by rewrite HArgs, fn_lookup_insert.
  - apply (make_for_assigned SharedOwnership)
      with (m_data := shared_registry (registry st) Args).
    cbn. by rewrite HArgs, fn_lookup_insert.
  - apply (make_for_assigned UniqueOwnership)
      with (m_data := unique_registry (registry st) Args).
    cbn. by rewrite HArgs, fn_lookup_insert.
  - intros Hmiss. rewrite <- HArgs in Hmiss.
    apply (make_for_miss Value). exact Hmiss.
Qed.

End shapes.

(** ** Overwriting *)

Section overwriting.
Context `{Instantiation}.

Lemma registry_assign_stores s Args hash func :
  stores (registry_assign s Args hash func) s Args hash func.
Proof.
  intros st. split_and!; [done..|]. apply registry_assign_eq.
Qed.

Lemma stores_then (mA mB : M unit) s Args hash func st :
  stores mA s Args hash func →
  (mA;; mB) st = mB (exec mA st).
Proof.
  intros Hst. destruct (Hst st) as (Hret & _). unfold exec, mbind, M_bind.
  destruct (mA st) as [[[]|e] st1]; [done|discriminate Hret].
Qed.

(** C2.  Last write wins.  An accepted [register_function] assigns the
    callable (its result converted) to the hash of the key in one registry,
    an accepted [register_type] assigns the constructor of the type to the
    hash of the key in the [Value] registry or in each of the three handle
    registries; both return nothing and call nothing.  When two such
    registrations [mA] then [mB] assign the producers [A] then [B] to the
    hash of the same key in the registry of the same shape and argument
    pack, starting from registries with unique ids, the pair returns
    nothing and calls nothing, the registry then holds exactly one entry
    for the hash, and [make] (resp. [make_ptr], [make_shared],
    [make_unique]) under the key calls [B]. *)
Theorem reregistration_overwrites :
  (∀ R Args key func m,
     register_function R Args key func = Some m →
     ∃ s (conv : values R → RetType s),
       stores m s Args (g_hash_function key) (function_map conv func))
  ∧ (∀ T Args key m,
       register_type T Args key = Some m →
       match to_base_type T with
       | Some conv =>
           stores m Value Args (g_hash_function key)
             (target (callable_map conv (constructor T)))
       | None =>
           stores m RawHandle Args (g_hash_function key) (new_object T)
           ∧ stores m SharedOwnership Args (g_hash_function key) (new_object T)
           ∧ stores m UniqueOwnership Args (g_hash_function key) (new_object T)
       end)
  ∧ (∀ (s : Shape) (Args : signature) (key : key_type)
       (A B : function (RetType s)) (mA mB : M unit)
       (args : list argument) (st : state),
       stores mA s Args (g_hash_function key) A →
       stores mB s Args (g_hash_function key) B →
       unique_ids (registry st) →
       decay args = Args →
       let st' := exec (mA;; mB) st in
       (mA;; mB) st = (returned (), st')
       ∧ environment st' = environment st
       ∧ invoked st' = invoked st
       ∧ detail.count (g_hash_function key) (g_registry (registry st') s Args) = 1%nat
       ∧ make_for s key args st' = invoke (g_hash_function key) B args st').
Proof.
  split_and!.
  - intros R Args key func m (s & conv & ->)%register_function_accepted.
    exists s, conv. apply registry_assign_stores.
  - intros T Args key m Hm.
    destruct (register_type_accepted _ _ _ _ Hm) as [[conv Hc]|[Hc Hb]].
    + rewrite (register_type_convertible _ _ _ _ Hc) in Hm. injection Hm as <-.
      rewrite Hc. apply registry_assign_stores.
    + rewrite (register_type_derived _ _ _ Hc Hb) in Hm. injection Hm as <-.
      rewrite Hc. split_and!; intros st; unfold exec;
        rewrite register_type_derived_effect; cbn; by rewrite fn_lookup_insert.
  - intros s Args key A B mA mB args st HA HB Huniq HArgs st'.
    assert (st' = exec mB (exec mA st)) as Hst'.
    { subst st'. unfold exec at 1. by rewrite (stores_then _ _ _ _ _ _ _ HA). }
    destruct (HA st) as (_ & HenvA & HlogA & HregA).
    destruct (HB (exec mA st)) as (HretB & HenvB & HlogB & HregB).
    rewrite <- Hst' in HenvB, HlogB, HregB.
    split_and!.
    + rewrite (stores_then _ _ _ _ _ _ _ HA). rewrite Hst'. unfold exec at 2.
      destruct (mB (exec mA st)) as [r st2]. simpl in *. by subst r.
    + by rewrite HenvB.
    + by rewrite HlogB.
    + rewrite HregB, HregA, !count_assign.
      pose proof (count_NoDup (g_hash_function key) _ (Huniq s Args)). lia.
    + apply make_for_assigned with (m_data := g_registry (registry (exec mA st)) s Args).
      by rewrite HArgs.
Qed.

End overwriting.

(** ** Instantiation by type identity *)

Section by_type_identity.
Context `{Instantiation}.

Lemma invoke_then_static_cast id func args st :
  (obj ← invoke id func args; mret (static_cast obj)) st = invoke id func args st.
Proof.
  unfold mbind, M_bind, mret, M_ret, static_cast.
  by destruct (invoke id func args st) as [[obj|e] st'].
Qed.

(** The instantiations by type are the lookup of [typeid(T).hash_code()]
    itself, followed by one call. *)
Lemma make_ptr_of_type_unfold T args st :
  make_ptr_of_type T args st =
  match detail.find (hash_code T) (ptr_registry (registry st) (decay args)) with
  | None => (raised RegistryMiss, st)
  | Some (_, (id, func)) => invoke id func args st
  end.
Proof.
  unfold make_ptr_of_type, get_registry. unfold mbind at 1, M_bind at 1. simpl.
  destruct (detail.find _ _) as [[it [id func]]|]; [|done].
  apply invoke_then_static_cast.
Qed.

Lemma make_shared_of_type_unfold T args st :
  make_shared_of_type T args st =
  match detail.find (hash_code T) (shared_registry (registry st) (decay args)) with
  | None => (raised RegistryMiss, st)
  | Some (_, (id, func)) => invoke id func args st
  end.
Proof.
  unfold make_shared_of_type, get_registry. unfold mbind at 1, M_bind at 1. simpl.
  destruct (detail.find _ _) as [[it [id func]]|]; [|done].
  apply invoke_then_static_cast.
Qed.

Lemma make_unique_of_type_unfold T args st :
  make_unique_of_type T args st =
  match detail.find (hash_code T) (unique_registry (registry st) (decay args)) with
  | None => (raised RegistryMiss, st)
  | Some (_, (id, func)) => invoke id func args st
  end.
Proof.
  unfold make_unique_of_type, get_registry. unfold mbind at 1, M_bind at 1. simpl.
  destruct (detail.find _ _) as [[it [id func]]|]; [|done].
  apply invoke_then_static_cast.
Qed.

Lemma make_of_type_unfold T args conv :
  to_base_type T = Some conv →
  ∃ mk, make_of_type T args = Some mk
    ∧ ∀ st, mk st =
        match detail.find (hash_code T) (value_registry (registry st) (decay args)) with
        | None => (raised RegistryMiss, st)
        | Some (_, (id, func)) => invoke id func args st
        end.
Proof.
  intros Hconv. unfold make_of_type. rewrite Hconv. simpl. eexists. split; [done|].
  intros st. unfold get_registry, mbind, M_bind. simpl.
  by destruct (detail.find _ _) as [[it [id func]]|].
Qed.

Lemma lookup_assigned {R A} (hash : Z) (func : function R) (m_data : partition R)
    (miss : A) (hit : Z → function R → A) :
  match detail.find hash (detail.assign empty_function hash func m_data) with
  | None => miss
  | Some (_, (id, f)) => hit id f
  end = hit hash func.
Proof. by destruct (find_assign empty_function hash func m_data) as [it ->]. Qed.

(** X20.  [register_type<T>()] stores under the hash of the converted type hash:
    the round trip through the instantiations by type holds when hashing
    the converted value gives the type hash back. *)
Lemma register_type_by_typeid_found T Args of_size_t args st :
  key_type_of_size_t = Some of_size_t →
  g_hash_function (of_size_t (hash_code T)) = hash_code T →
  decay args = Args →
  match to_base_type T with
  | Some conv =>
      ∃ m mk, register_type_by_typeid T Args = Some m
        ∧ make_of_type T args = Some mk
        ∧ mk (exec m st)
          = invoke (hash_code T) (target (callable_map conv (constructor T))) args (exec m st)
  | None =>
      is_base_of T = true →
      ∃ m, register_type_by_typeid T Args = Some m
        ∧ make_ptr_of_type T args (exec m st)
          = invoke (hash_code T) (new_object T) args (exec m st)
        ∧ make_shared_of_type T args (exec m st)
          = invoke (hash_code T) (new_object T) args (exec m st)
        ∧ make_unique_of_type T args (exec m st)
          = invoke (hash_code T) (new_object T) args (exec m st)
  end.
Proof.
  intros Hkey Hhash HArgs. unfold register_type_by_typeid. rewrite Hkey.
  destruct (to_base_type T) as [conv|] eqn:Hconv.
  - destruct (make_of_type_unfold T args conv Hconv) as (mk & Hmk & Hrun).
    eexists _, mk. split; [by apply register_type_convertible|]. split; [done|].
    rewrite Hrun, Hhash, HArgs.
    change (value_registry ?r Args) with (g_registry r Value Args).
    rewrite registry_assign_eq.
    exact (lookup_assigned (hash_code T) _ _ _ (λ id f, invoke id f args _)).
  - intros Hbase. eexists. split; [by apply register_type_derived|].
    rewrite make_ptr_of_type_unfold, make_shared_of_type_unfold,
      make_unique_of_type_unfold, HArgs.
    unfold exec. rewrite register_type_derived_effect. cbn.
    rewrite !fn_lookup_insert, Hhash.
    split_and!;
      exact (lookup_assigned (hash_code T) _ _ _ (λ id f, invoke id f args _)).
Qed.

(** X21.  When hashing the converted value gives another number, the entry is
    stored under that number, and the instantiations by type, which look
    for the type hash, miss it. *)
Lemma register_type_by_typeid_missed T Args of_size_t m args st :
  key_type_of_size_t = Some of_size_t →
  g_hash_function (of_size_t (hash_code T)) ≠ hash_code T →
  register_type_by_typeid T Args = Some m →
  (∀ s, detail.find (hash_code T) (g_registry (registry st) s (decay args)) = None) →
  let st' := exec m st in
  (∀ mk, make_of_type T args = Some mk → mk st' = (raised RegistryMiss, st'))
  ∧ make_ptr_of_type T args st' = (raised RegistryMiss, st')
  ∧ make_shared_of_type T args st' = (raised RegistryMiss, st')
  ∧ make_unique_of_type T args st' = (raised RegistryMiss, st').
Proof.
  intros Hkey Hhash Hm Hfree st'. subst st'. unfold register_type_by_typeid in Hm.
  rewrite Hkey in Hm.
  assert (∀ s, detail.find (hash_code T)
            (g_registry (registry (exec m st)) s (decay args)) = None)
    as Hfree'.
  { intros s. apply find_None_keys.
    destruct (register_type_keeps_order _ _ _ _ Hm st s (decay args)) as [->|[_ ->]].
    - by apply find_None_keys.
    - rewrite elem_of_app, list_elem_of_singleton.
      intros [Hin|Heq]; [|done]. by apply find_None_keys in Hin. }
  split_and!.
  - intros mk Hmk. destruct (to_base_type T) as [conv|] eqn:Hconv.
    + destruct (make_of_type_unfold T args conv Hconv) as (mk' & Hmk' & Hrun).
      rewrite Hmk in Hmk'. injection Hmk' as <-.
      rewrite Hrun. pose proof (Hfree' Value) as Hv. cbn [g_registry RetType] in Hv.
      by rewrite Hv.
    + unfold make_of_type in Hmk. by rewrite Hconv in Hmk.
  - pose proof (Hfree' RawHandle) as Hv. cbn [g_registry RetType] in Hv.
    by rewrite make_ptr_of_type_unfold, Hv.
  - pose proof (Hfree' SharedOwnership) as Hv. cbn [g_registry RetType] in Hv.
    by rewrite make_shared_of_type_unfold, Hv.
  - pose proof (Hfree' UniqueOwnership) as Hv. cbn [g_registry RetType] in Hv.
    by rewrite make_unique_of_type_unfold, Hv.
Qed.

End by_type_identity.

(** ** Explicit callables *)

Section explicit_callables.
Context `{Instantiation}.

(** An accepted [register_function] writes one registry and leaves every
    other one as it was. *)
Lemma register_function_single_registry R Args key func m :
  register_function R Args key func = Some m →
  ∃ s (conv : values R → RetType s),
    m = registry_assign s Args (g_hash_function key) (function_map conv func)
    ∧ ∀ st s' Args', s ≠ s' ∨ Args ≠ Args' →
        g_registry (registry (exec m st)) s' Args' = g_registry (registry st) s' Args'.
Proof.
  intros (s & conv & ->)%register_function_accepted. exists s, conv.
  split; [done|]. intros st s' Args'. apply registry_assign_ne.
Qed.

(** The first [static_assert] of [register_function_impl] refuses every
    return type that is neither derived from [base_type] nor convertible
    to it, whatever else it converts to. *)
Lemma register_function_unrelated R Args key func :
  ret_is_base_of R = false →
  ret_to_base_type R = None →
  register_function R Args key func = None.
Proof.
  intros Hbase Hconv. unfold register_function, register_function_impl.
  by rewrite Hbase, Hconv.
Qed.

End explicit_callables.

(** ** The code at the inputs where it departs from its description *)

(** C1.  Registration by type identity.  In [static_factory<BaseClass,
    unsigned int>], [register_type<ConcreteClassA>()] is accepted and
    stores the producers under the hash of the converted type hash, here
    the lower 32 bits of [typeid(ConcreteClassA).hash_code()], which is
    another number; [make_ptr<ConcreteClassA>()],
    [make_shared<ConcreteClassA>()] and [make_unique<ConcreteClassA>()],
    which look for the type hash itself, then raise the "Registry not
    found" error without calling anything, while [make_ptr] with the
    truncated number as key constructs the object.  In
    [static_factory<BaseClass>], whose keys are strings,
    [register_type<ConcreteClassA>()] is not accepted at all. *)
Theorem register_type_by_typeid_is_missed :
  let T : @concrete_type tests.uint_key_factory := tests.ConcreteClassA in
  let st := tests.ConcreteClassA_by_typeid in
  is_Some (@register_type_by_typeid tests.uint_key_factory T [])
  ∧ detail.keys (ptr_registry (registry st) []) = [hash_code T `mod` 2 ^ 32]
  ∧ hash_code T `mod` 2 ^ 32 ≠ hash_code T
  ∧ make_ptr_of_type T [] st = (raised RegistryMiss, st)
  ∧ make_shared_of_type T [] st = (raised RegistryMiss, st)
  ∧ make_unique_of_type T [] st = (raised RegistryMiss, st)
  ∧ observe (@make_ptr tests.uint_key_factory (hash_code T `mod` 2 ^ 32) [] st)
    = (returned (Some tests.ConcreteClassA_object), 1%nat, [hash_code T `mod` 2 ^ 32])
  ∧ @register_type_by_typeid tests.BaseClass_factory tests.ConcreteClassA [] = None.
Proof.
  intros T st. split_and!.
  - by eexists.
  - reflexivity.
  - by vm_compute.
  - reflexivity.
  - reflexivity.
  - reflexivity.
  - reflexivity.
  - reflexivity.
Qed.

(** C9.  Explicit callables that return handles.  In
    [static_factory<BaseClass>], [register_function] with a callable that
    returns a [BaseClass*], a [std::shared_ptr<ConcreteClassA>] or a
    [std::unique_ptr<ConcreteClassA>] is not accepted: the first
    [static_assert] of [register_function_impl] fails, and no registry
    receives the callable. *)
Theorem register_function_refuses_handles :
  @register_function tests.BaseClass_factory tests.returns_BaseClass_ptr []
    "ClassA"%string tests.new_ConcreteClassA = None
  ∧ @register_function tests.BaseClass_factory tests.returns_shared_ptr []
      "ClassA"%string tests.new_ConcreteClassA = None
  ∧ @register_function tests.BaseClass_factory tests.returns_unique_ptr []
      "ClassA"%string tests.new_ConcreteClassA = None.
Proof. split_and!; reflexivity. Qed.

(** ** The checks of [test/tests.cpp] *)

(** TEST_CASE("raw pointers"). *)
Example raw_pointers :
  tests.getValue_of
    (@make_ptr tests.BaseClass_factory "ClassA"%string [] tests.classes_registered).1
  = Some 42
  ∧ tests.getValue_of
      (@make_ptr tests.BaseClass_factory "ClassB"%string [] tests.classes_registered).1
    = Some 84
  ∧ tests.getValue_of
      (@try_make_ptr tests.BaseClass_factory [] tests.classes_registered).1
    = Some 42.
Proof. split_and!; reflexivity. Qed.

(** TEST_CASE("shared Pointers"). *)
Example shared_pointers :
  tests.getValue_of
    (@make_shared tests.BaseClass_factory "ClassA"%string [] tests.classes_registered).1
  = Some 42
  ∧ tests.getValue_of
      (@make_shared tests.BaseClass_factory "ClassB"%string [] tests.classes_registered).1
    = Some 84
  ∧ tests.getValue_of
      (@try_make_shared tests.BaseClass_factory [] tests.classes_registered).1
    = Some 42.
Proof. split_and!; reflexivity. Qed.

(** TEST_CASE("factory: unique Pointers"). *)
Example unique_pointers :
  tests.getValue_of
    (@make_unique tests.BaseClass_factory "ClassA"%string [] tests.classes_registered).1
  = Some 42
  ∧ tests.getValue_of
      (@make_unique tests.BaseClass_factory "ClassB"%string [] tests.classes_registered).1
    = Some 84
  ∧ tests.getValue_of
      (@try_make_unique tests.BaseClass_factory [] tests.classes_registered).1
    = Some 42.
Proof. split_and!; reflexivity. Qed.

(** TEST_CASE("variant"). *)
Example variant :
  (@make tests.pet_factory "dog"%string [] tests.pets_registered).1
  = returned (tests.dog "")
  ∧ (@make tests.pet_factory "cat"%string [] tests.pets_registered).1
    = returned (tests.cat "")
  ∧ (@make tests.pet_factory "my_cat"%string [] tests.pets_registered).1
    = returned (tests.cat "Anber")
  ∧ (@try_make tests.pet_factory [] tests.pets_registered).1
    = returned (tests.dog "").
Proof. split_and!; reflexivity. Qed.

(** ** The statements on the test cases *)

(** After the registrations of "ClassA" and "ClassB", [make_ptr("ClassC")]
    misses. *)
Lemma make_miss_witness :
  @make_for tests.BaseClass_factory RawHandle "ClassC"%string [] tests.classes_registered
  = (raised RegistryMiss, tests.classes_registered).
Proof.
  apply (@make_miss tests.BaseClass_factory RawHandle). reflexivity.
Defined.

(** [make("P1")] raises what the producer registered under "P1" throws. *)
Lemma make_propagates_failure_witness :
  @make_for tests.pet_factory Value "P1"%string [] tests.one_throws_two_return
  = (raised (@other_exception tests.pet_factory "P1 failed"%string),
     @State tests.pet_factory (registry tests.one_throws_two_return) 1%nat [tests.string_hash "P1"]).
Proof.
  apply (@make_propagates_failure tests.pet_factory Value "P1"%string []
           tests.one_throws_two_return _ 0%nat (tests.string_hash "P1")
           (function_map (λ obj : tests.pet, obj) (tests.throwing "P1 failed"))).
  - reflexivity.
  - reflexivity.
Defined.

(** [try_make()] before any registration: the default [pet], and an error
    for the abstract [BaseClass]. *)
Lemma try_make_empty_witness :
  @try_make tests.pet_factory [] (@initial_state tests.pet_factory 0%nat)
  = (returned (tests.dog ""), @initial_state tests.pet_factory 0%nat)
  ∧ @try_make tests.BaseClass_factory [] (@initial_state tests.BaseClass_factory 0%nat)
    = (raised NoRegistryAvailable, @initial_state tests.BaseClass_factory 0%nat).
Proof.
  split.
  - exact (@try_make_empty tests.pet_factory []
             (@initial_state tests.pet_factory 0%nat) eq_refl).
  - exact (@try_make_empty tests.BaseClass_factory []
             (@initial_state tests.BaseClass_factory 0%nat) eq_refl).
Defined.

(** Two producers that throw, called with a temporary string: [try_make]
    raises what the second threw, and the second was asked for the
    moved-from name. *)
Lemma try_make_all_raise_witness :
  @try_make_for tests.pet_factory Value [tests.string_rvalue "Tom"]
    tests.named_two_throw
  = (raised (@other_exception tests.pet_factory "no cat named "%string),
     @State tests.pet_factory (registry tests.named_two_throw) 2%nat
       [tests.string_hash "P1"; tests.string_hash "P2"]).
Proof.
  apply (@try_make_all_raise tests.pet_factory Value [tests.string_rvalue "Tom"]
           tests.named_two_throw).
  reflexivity.
Defined.

(** A producer of [nullptr] and then one that returns [nullptr] for an
    empty name, called with a temporary string: the three fallbacks return
    [nullptr]. *)
Lemma try_make_handle_all_null_witness :
  @try_make_ptr tests.BaseClass_factory [tests.string_rvalue "Tom"] tests.only_nullptr
  = (returned None,
     @State tests.BaseClass_factory (registry tests.only_nullptr) 2%nat [1; 2])
  ∧ @try_make_shared tests.BaseClass_factory [tests.string_rvalue "Tom"]
      tests.only_nullptr
    = (returned None,
       @State tests.BaseClass_factory (registry tests.only_nullptr) 2%nat [1; 2])
  ∧ @try_make_unique tests.BaseClass_factory [tests.string_rvalue "Tom"]
      tests.only_nullptr
    = (returned None,
       @State tests.BaseClass_factory (registry tests.only_nullptr) 2%nat [1; 2]).
Proof.
  destruct (@try_make_handle_all_null tests.BaseClass_factory
              [tests.string_rvalue "Tom"] tests.only_nullptr
              (@State tests.BaseClass_factory (registry tests.only_nullptr) 2%nat [1; 2])
              [(1, tests.returns_nullptr); (2, tests.nullptr_for_no_name)])
    as (Hptr & Hshared & Hunique).
  - discriminate.
  - reflexivity.
  - split_and!; [apply Hptr|apply Hshared|apply Hunique]; reflexivity.
Defined.


(** [register_type<ConcreteClassA>("ClassA")]: the object is constructed
    through [make_ptr], and [make] misses. *)
Lemma register_type_shape_isolation_witness :
  ∃ m, @register_type tests.BaseClass_factory tests.ConcreteClassA [] "ClassA"%string
       = Some m
    ∧ observe (@make_ptr tests.BaseClass_factory "ClassA"%string []
                 (exec m (@initial_state tests.BaseClass_factory 0%nat)))
      = (returned (Some tests.ConcreteClassA_object), 1%nat, [tests.string_hash "ClassA"])
    ∧ (@make tests.BaseClass_factory "ClassA"%string []
         (exec m (@initial_state tests.BaseClass_factory 0%nat))).1
      = raised RegistryMiss.
Proof.
  destruct (@register_type_shape_isolation tests.BaseClass_factory
              tests.ConcreteClassA [] "ClassA"%string []
              (@initial_state tests.BaseClass_factory 0%nat)
              eq_refl eq_refl eq_refl)
    as [(m & Hm & _ & _ & _ & _ & _ & _ & _ & _ & Hptr & _ & _ & Hmake) _].
  exists m. split; [exact Hm|].
  rewrite Hptr, (Hmake eq_refl).
  rewrite (@register_type_derived tests.BaseClass_factory tests.ConcreteClassA []
             "ClassA"%string eq_refl eq_refl) in Hm.
  injection Hm as <-.
  split; reflexivity.
Defined.

(** [dog] then [cat] registered under "k": one entry, and [make("k")]
    constructs a [cat]. *)
Lemma reregistration_overwrites_witness :
  ∃ mA mB,
    @register_type tests.pet_factory tests.dog_type [] "k"%string = Some mA
    ∧ @register_type tests.pet_factory tests.cat_type [] "k"%string = Some mB
    ∧ detail.count (tests.string_hash "k")
        (value_registry
           (registry (exec (mA;; mB) (@initial_state tests.pet_factory 0%nat))) [])
      = 1%nat
    ∧ observe (@make tests.pet_factory "k"%string []
                 (exec (mA;; mB) (@initial_state tests.pet_factory 0%nat)))
      = (returned (tests.cat ""), 1%nat, [tests.string_hash "k"]).
Proof.
  destruct (@reregistration_overwrites tests.pet_factory) as (_ & Htype & Hover).
  eexists _, _. split; [reflexivity|]. split; [reflexivity|].
  pose proof (Htype tests.dog_type [] "k"%string _ eq_refl) as HA.
  pose proof (Htype tests.cat_type [] "k"%string _ eq_refl) as HB.
  destruct (Hover Value [] "k"%string _ _ _ _ []
              (@initial_state tests.pet_factory 0%nat) HA HB
              unique_ids_empty eq_refl) as (_ & _ & _ & Hcount & Hmake).
  split; [exact Hcount|].
  change (@make tests.pet_factory "k"%string [])
    with (@make_for tests.pet_factory Value "k"%string []).
  rewrite Hmake. reflexivity.
Defined.

(** * Further properties *)

(** ** [unordered_flat_map::insert] and [operator[]] *)

Section unordered_flat_map_insert.
Context {Key Value : Type} `{EqDecision Key}.
Implicit Types (key : Key) (value dflt : Value)
  (m_data : detail.unordered_flat_map Key Value).

Lemma insert_nil key value : detail.insert key value [] = [(key, value)].
Proof. reflexivity. Qed.

Lemma insert_cons key value p m_data :
  detail.insert key value (p :: m_data) =
  if decide (p.1 = key) then (p.1, value) :: m_data
  else p :: detail.insert key value m_data.
Proof.
  unfold detail.insert. rewrite find_cons.
  destruct (decide (p.1 = key)) as [Heq|Hne]; [reflexivity|].
  destruct (detail.find key m_data) as [[it q]|]; reflexivity.
Qed.

Lemma insert_as_assign dflt key value m_data :
  detail.insert key value m_data = detail.assign dflt key value m_data.
Proof.
  induction m_data as [|p m_data IH]; [done|].
  rewrite insert_cons, assign_cons. by rewrite IH.
Qed.

(** X1.  [m.insert(key, value)] and [m[key] = value] leave the same vector,
    whatever [value_type()] is. *)
Theorem insert_agrees_with_subscript_assignment dflt key value m_data :
  detail.insert key value m_data
  = detail.set_second (detail.operator_index dflt key m_data).2 value
      (detail.operator_index dflt key m_data).1.
Proof.
  rewrite (insert_as_assign dflt). unfold detail.assign.
  by destruct (detail.operator_index dflt key m_data).
Qed.

(** X2.  After [insert(key, value)], [find(key)] designates [value], and every
    other key is found where and as it was. *)
Theorem find_insert key value m_data :
  (∃ it, detail.find key (detail.insert key value m_data) = Some (it, (key, value)))
  ∧ (∀ key', key' ≠ key →
       detail.find key' (detail.insert key value m_data) = detail.find key' m_data).
Proof.
  split.
  - destruct (find_assign value key value m_data) as [it Hit].
    exists it. by rewrite (insert_as_assign value).
  - intros key' Hne. rewrite (insert_as_assign value).
    by apply find_assign_ne.
Qed.

(** X3.  A second [insert] of the same key replaces the first: the vector is
    as if only the second had happened. *)
Theorem insert_insert key value1 value2 m_data :
  detail.insert key value2 (detail.insert key value1 m_data)
  = detail.insert key value2 m_data.
Proof.
  induction m_data as [|p m_data IH].
  - rewrite !insert_nil, insert_cons. simpl. by rewrite decide_True.
  - rewrite !insert_cons. destruct (decide (p.1 = key)) as [Heq|Hne].
    + rewrite insert_cons. simpl. by rewrite decide_True.
    + rewrite insert_cons, decide_False by done. by rewrite IH.
Qed.

(** X4.  [insert] never removes or moves an entry: the keys are as before when
    [key] was present, and otherwise [key] is added at the end; the vector
    grows by at most one entry. *)
Theorem insert_keys key value m_data :
  detail.keys (detail.insert key value m_data)
  = (if decide (key ∈ detail.keys m_data) then detail.keys m_data
     else detail.keys m_data ++ [key])
  ∧ (length m_data ≤ length (detail.insert key value m_data) ≤ S (length m_data))%nat.
Proof.
  rewrite (insert_as_assign value). split; [apply keys_assign|].
  pose proof (keys_assign value key value m_data) as Hkeys.
  apply (f_equal length) in Hkeys. unfold detail.keys in Hkeys.
  rewrite length_fmap in Hkeys. rewrite Hkeys.
  destruct (decide (key ∈ m_data.*1)); rewrite ?length_app, length_fmap; simpl; lia.
Qed.

(** X5.  [insert] keeps the keys unique, and then leaves exactly one entry of
    the inserted key. *)
Theorem insert_unique key value m_data :
  NoDup (detail.keys m_data) →
  NoDup (detail.keys (detail.insert key value m_data))
  ∧ detail.count key (detail.insert key value m_data) = 1%nat.
Proof.
  intros Hnd. rewrite (insert_as_assign value). split.
  - by apply NoDup_keys_assign.
  - by apply count_assign_NoDup.
Qed.

(** X6.  [operator[](key)]: the slot returned holds [key]; when [key] was
    present the vector is unchanged and the slot is the one [find]
    designates, and when it was absent one entry with [value_type()] is
    added at the end, so that a mere read through [operator[]] grows the
    map. *)
Theorem operator_index_slot dflt key m_data :
  let '(m_data', slot) := detail.operator_index dflt key m_data in
  match detail.find key m_data with
  | Some (it, (k, value)) =>
      m_data' = m_data ∧ slot = it ∧ k = key ∧ m_data' !! slot = Some (key, value)
  | None =>
      m_data' = m_data ++ [(key, dflt)] ∧ m_data' !! slot = Some (key, dflt)
  end.
Proof.
  unfold detail.operator_index.
  destruct (detail.find key m_data) as [[it [k value]]|] eqn:Hfind.
  - apply find_Some_key in Hfind as [Hk Hit]. simpl in Hk. subst k. done.
  - split; [done|]. by rewrite lookup_app_r, Nat.sub_diag.
Qed.

End unordered_flat_map_insert.

(** ** Instantiation and the registries *)

Section instantiation_and_registries.
Context `{Instantiation}.

Lemma make_of_type_for_unfold s T args mk st :
  make_of_type_for s T args = Some mk →
  mk st =
  match detail.find (hash_code T) (g_registry (registry st) s (decay args)) with
  | None => (raised RegistryMiss, st)
  | Some (_, (id, func)) => invoke id func args st
  end.
Proof.
  destruct s; simpl.
  - intros Hmk. destruct (to_base_type T) as [conv|] eqn:Hconv.
    + destruct (make_of_type_unfold T args conv Hconv) as (mk' & Hmk' & Hrun).
      rewrite Hmk in Hmk'. injection Hmk' as <-. apply Hrun.
    + unfold make_of_type in Hmk. by rewrite Hconv in Hmk.
  - intros [= <-]. apply make_ptr_of_type_unfold.
  - intros [= <-]. apply make_shared_of_type_unfold.
  - intros [= <-]. apply make_unique_of_type_unfold.
Qed.

Lemma make_of_type_for_registry s T args st :
  registry (exec_accepted (make_of_type_for s T args) st) = registry st.
Proof.
  destruct (make_of_type_for s T args) as [mk|] eqn:Hmk; [|done].
  simpl. unfold exec. rewrite (make_of_type_for_unfold _ _ _ _ _ Hmk).
  destruct (detail.find _ _) as [[it [id func]]|]; [|done].
  destruct (invoke id func args st) as [r st'] eqn:Hinv.
  apply invoke_frame in Hinv as [Hreg _]. exact Hreg.
Qed.

(** X8.  No instantiation, by key, by type identity or by fallback, writes a
    registry: a lookup never inserts, and nothing is ever removed. *)
Theorem instantiation_keeps_registries :
  (∀ s key args st, registry (exec (make_for s key args) st) = registry st)
  ∧ (∀ s T args st,
       registry (exec_accepted (make_of_type_for s T args) st) = registry st)
  ∧ (∀ s args st, registry (exec (try_make_for s args) st) = registry st).
Proof.
  split_and!.
  - apply make_for_registry.
  - apply make_of_type_for_registry.
  - apply try_make_for_registry.
Qed.

Lemma register_type_by_typeid_unfold T Args :
  register_type_by_typeid T Args = None
  ∨ ∃ key, register_type_by_typeid T Args = register_type T Args key.
Proof.
  unfold register_type_by_typeid. destruct key_type_of_size_t as [conv|]; eauto.
Qed.

Lemma perform_registry c st :
  (∃ (m : M unit) hash,
     registry (perform c st) = registry (exec m st)
     ∧ keeps_order m hash
     ∧ (unique_ids (registry st) → unique_ids (registry (exec m st))))
  ∨ registry (perform c st) = registry st.
Proof.
  destruct c as [R Args key func|T Args key|T Args|s key args|s T args|s args]; simpl.
  - destruct (register_function R Args key func) as [m|] eqn:Hm; [left|by right].
    exists m, (g_hash_function key). split_and!; [done| |].
    + by eapply register_function_keeps_order.
    + by eapply register_function_unique_ids.
  - destruct (register_type T Args key) as [m|] eqn:Hm; [left|by right].
    exists m, (g_hash_function key). split_and!; [done| |].
    + by eapply register_type_keeps_order.
    + by eapply register_type_unique_ids.
  - destruct (register_type_by_typeid_unfold T Args) as [->|[key ->]]; [by right|].
    destruct (register_type T Args key) as [m|] eqn:Hm; [left|by right].
    exists m, (g_hash_function key). split_and!; [done| |].
    + by eapply register_type_keeps_order.
    + by eapply register_type_unique_ids.
  - right. apply make_for_registry.
  - right. apply make_of_type_for_registry.
  - right. apply try_make_for_registry.
Qed.

Lemma perform_unique_ids c st :
  unique_ids (registry st) → unique_ids (registry (perform c st)).
Proof.
  intros Hu. destruct (perform_registry c st) as [(m & hash & -> & _ & Hm)| ->]; auto.
Qed.

Lemma perform_prefix c st s Args :
  detail.keys (g_registry (registry st) s Args)
  `prefix_of` detail.keys (g_registry (registry (perform c st)) s Args).
Proof.
  destruct (perform_registry c st) as [(m & hash & -> & Hm & _)| ->]; [|done].
  destruct (Hm st s Args) as [->|[_ ->]]; [done|]. by apply prefix_app_r.
Qed.

(** X9.  Ids are unique in every registry of every state that a program reaches
    from the initial one, whatever calls it makes. *)
Theorem reachable_unique_ids (calls : list api_call) (w : world) :
  unique_ids (registry (perform_all calls (initial_state w))).
Proof.
  unfold perform_all.
  assert (∀ st, unique_ids (registry st) →
            unique_ids (registry (fold_left (λ st c, perform c st) calls st))) as Hall.
  { induction calls as [|c calls IH]; intros st Hu; [done|].
    simpl. apply IH. by apply perform_unique_ids. }
  apply Hall. apply unique_ids_empty.
Qed.

(** X10.  Registries only grow at their end: whatever calls a program makes, the
    ids of every registry before the calls are, in the same order, the
    first ids of that registry after them.  No call removes or reorders an
    entry. *)
Theorem registries_only_grow (calls : list api_call) (st : state) (s : Shape)
    (Args : signature) :
  detail.keys (g_registry (registry st) s Args)
  `prefix_of` detail.keys (g_registry (registry (perform_all calls st)) s Args).
Proof.
  unfold perform_all. revert st.
  induction calls as [|c calls IH]; intros st; [done|].
  simpl. etrans; [apply (perform_prefix c)|apply IH].
Qed.

End instantiation_and_registries.

(** ** Registration followed by instantiation *)

Section registration_then_instantiation.
Context `{Instantiation}.

(** What a call of an entry shows outside the registries depends on the
    state only through the world and the log. *)
Lemma invoke_observe {R} id (func : function R) args st1 st2 :
  environment st1 = environment st2 →
  invoked st1 = invoked st2 →
  observe (invoke id func args st1) = observe (invoke id func args st2).
Proof.
  intros Henv Hlog. unfold observe, invoke. rewrite Henv, Hlog.
  destruct func as [|f]; [done|]. by destruct (f args (environment st2)).
Qed.

Lemma make_for_observe s key args st1 st2 :
  detail.find (g_hash_function key) (g_registry (registry st1) s (decay args))
  = detail.find (g_hash_function key) (g_registry (registry st2) s (decay args)) →
  environment st1 = environment st2 →
  invoked st1 = invoked st2 →
  observe (make_for s key args st1) = observe (make_for s key args st2).
Proof.
  intros Hfind Henv Hlog. rewrite !make_for_unfold, Hfind.
  destruct (detail.find (g_hash_function key)
              (g_registry (registry st2) s (decay args))) as [[it [id func]]|].
  - by apply invoke_observe.
  - unfold observe. simpl. by rewrite Henv, Hlog.
Qed.

(** An assignment leaves the lookup of every other id, and every lookup in
    the registry of another argument pack, as it was. *)
Lemma registry_assign_find_other s Args hash func st s' Args' hash' :
  hash' ≠ hash ∨ Args' ≠ Args →
  detail.find hash' (g_registry (registry (exec (registry_assign s Args hash func) st)) s' Args')
  = detail.find hash' (g_registry (registry st) s' Args').
Proof.
  intros Hne. destruct (decide (s = s' ∧ Args = Args')) as [[<- <-]|Hother].
  - rewrite registry_assign_eq. apply find_assign_ne.
    destruct Hne as [Hh|HA]; [congruence|done].
  - rewrite registry_assign_ne; [done|].
    destruct (decide (s = s')) as [Hs|Hs]; [right|by left].
    intros HA. by apply Hother.
Qed.

Lemma register_type_find_other T Args key m st s' Args' hash' :
  register_type T Args key = Some m →
  hash' ≠ g_hash_function key ∨ Args' ≠ Args →
  detail.find hash' (g_registry (registry (exec m st)) s' Args')
  = detail.find hash' (g_registry (registry st) s' Args').
Proof.
  intros Hm Hne. destruct (register_type_accepted _ _ _ _ Hm) as [[conv Hc]|[Hc Hb]].
  - rewrite (register_type_convertible _ _ _ _ Hc) in Hm. injection Hm as <-.
    by apply registry_assign_find_other.
  - rewrite (register_type_derived _ _ _ Hc Hb) in Hm. injection Hm as <-.
    unfold exec. rewrite !registry_assign_then.
    fold (exec (registry_assign UniqueOwnership Args (g_hash_function key) (new_object T))
            (exec (registry_assign SharedOwnership Args (g_hash_function key) (new_object T))
               (exec (registry_assign RawHandle Args (g_hash_function key) (new_object T)) st))).
    by rewrite !registry_assign_find_other.
Qed.

Lemma register_type_silent T Args key m st :
  register_type T Args key = Some m →
  (m st).1 = returned ()
  ∧ environment (exec m st) = environment st
  ∧ invoked (exec m st) = invoked st.
Proof.
  intros Hm. destruct (register_type_accepted _ _ _ _ Hm) as [[conv Hc]|[Hc Hb]].
  - rewrite (register_type_convertible _ _ _ _ Hc) in Hm. by injection Hm as <-.
  - rewrite (register_type_derived _ _ _ Hc Hb) in Hm. by injection Hm as <-.
Qed.

Lemma register_function_pointer R Args key func conv :
  ret_to_base_type R = None → ret_is_base_of R = true →
  ret_to_pointer R = Some conv →
  register_function R Args key func
  = Some (registry_assign RawHandle Args (g_hash_function key) (function_map conv func)).
Proof.
  intros Hbase Hder Hconv. unfold register_function, register_function_impl, is_related_v.
  by rewrite Hbase, Hder, Hconv.
Qed.

Lemma register_function_shared R Args key func conv :
  ret_to_base_type R = None → ret_is_base_of R = true →
  ret_to_pointer R = None → ret_shared_ptr_of_derived R = Some conv →
  register_function R Args key func
  = Some (registry_assign SharedOwnership Args (g_hash_function key)
            (function_map conv func)).
Proof.
  intros Hbase Hder Hptr Hconv.
  unfold register_function, register_function_impl, is_related_v.
  by rewrite Hbase, Hder, Hptr, Hconv.
Qed.

Lemma register_function_unique R Args key func conv :
  ret_to_base_type R = None → ret_is_base_of R = true →
  ret_to_pointer R = None → ret_shared_ptr_of_derived R = None →
  ret_unique_ptr_of_derived R = Some conv →
  register_function R Args key func
  = Some (registry_assign UniqueOwnership Args (g_hash_function key)
            (function_map conv func)).
Proof.
  intros Hbase Hder Hptr Hshared Hconv.
  unfold register_function, register_function_impl, is_related_v.
  by rewrite Hbase, Hder, Hptr, Hshared, Hconv.
Qed.

(** The instantiation that follows the assignment of a converted target
    calls the target once and converts its result. *)
Lemma make_for_registered {A} s Args key (conv : A → RetType s) (f : callable A)
    args st :
  decay args = Args →
  let m := registry_assign s Args (g_hash_function key) (function_map conv (target f)) in
  (m st).1 = returned ()
  ∧ environment (exec m st) = environment st
  ∧ invoked (exec m st) = invoked st
  ∧ make_for s key args (exec m st)
    = call_of conv f (g_hash_function key) args (exec m st).
Proof.
  intros HArgs m. split_and!; [done..|].
  rewrite (make_for_assigned s key args _ (function_map conv (target f))
             (g_registry (registry st) s Args)).
  - unfold invoke, call_of, function_map, callable_map.
    by destruct (f args (environment (exec m st))).
  - rewrite HArgs. apply registry_assign_eq.
Qed.

(** X11.  After an accepted [register_function(key, f)] the instantiation
    by [key] of the shape that the return type selects, with arguments of
    the registered pack, calls [f] once and converts its result with the
    conversion of that shape: to [base_type] and through [make] when the
    return type converts to [base_type]; otherwise, for a return type
    derived from [base_type], to [base_type*] and through [make_ptr] when
    it converts to [base_type*], else to the shared and then to the unique
    handle and through [make_shared], [make_unique].  The registration
    itself returns nothing, calls nothing and leaves the world alone. *)
Theorem register_function_then_make (R : return_type) (Args : signature)
    (key : key_type) (f : callable (values R)) (args : list argument)
    (st : state) :
  decay args = Args →
  let hash := g_hash_function key in
  let registered (m : M unit) : Prop :=
    register_function R Args key (target f) = Some m
    ∧ (m st).1 = returned ()
    ∧ environment (exec m st) = environment st
    ∧ invoked (exec m st) = invoked st in
  (∀ conv, ret_to_base_type R = Some conv →
     ∃ m, registered m
       ∧ make key args (exec m st) = call_of conv f hash args (exec m st))
  ∧ (∀ conv, ret_to_base_type R = None → ret_is_base_of R = true →
       ret_to_pointer R = Some conv →
       ∃ m, registered m
         ∧ make_ptr key args (exec m st) = call_of conv f hash args (exec m st))
  ∧ (∀ conv, ret_to_base_type R = None → ret_is_base_of R = true →
       ret_to_pointer R = None → ret_shared_ptr_of_derived R = Some conv →
       ∃ m, registered m
         ∧ make_shared key args (exec m st) = call_of conv f hash args (exec m st))
  ∧ (∀ conv, ret_to_base_type R = None → ret_is_base_of R = true →
       ret_to_pointer R = None → ret_shared_ptr_of_derived R = None →
       ret_unique_ptr_of_derived R = Some conv →
       ∃ m, registered m
         ∧ make_unique key args (exec m st) = call_of conv f hash args (exec m st)).
Proof.
  intros HArgs hash registered. subst registered hash. split_and!.
  - intros conv Hconv. eexists. split_and!;
      [by apply register_function_value|..];
      by apply (make_for_registered Value Args key conv f args st HArgs).
  - intros conv Hbase Hder Hconv. eexists. split_and!;
      [by apply register_function_pointer|..];
      by apply (make_for_registered RawHandle Args key conv f args st HArgs).
  - intros conv Hbase Hder Hptr Hconv. eexists. split_and!;
      [by apply register_function_shared|..];
      by apply (make_for_registered SharedOwnership Args key conv f args st HArgs).
  - intros conv Hbase Hder Hptr Hshared Hconv. eexists. split_and!;
      [by apply register_function_unique|..];
      by apply (make_for_registered UniqueOwnership Args key conv f args st HArgs).
Qed.

(** X14.  A type that is convertible to [base_type] is registered by value only,
    derived or not: [register_type] writes the [Value] registry of the pack
    and leaves every handle registry as it was, and [make] under the key
    then runs the constructor, converts the object and logs one call. *)
Theorem register_type_convertible_value_only (T : concrete_type)
    (Args : signature) (key : key_type) (conv : object → base_type)
    (args : list argument) (st : state) :
  to_base_type T = Some conv →
  decay args = Args →
  ∃ m, register_type T Args key = Some m
    ∧ ptr_registry (registry (exec m st)) = ptr_registry (registry st)
    ∧ shared_registry (registry (exec m st)) = shared_registry (registry st)
    ∧ unique_registry (registry (exec m st)) = unique_registry (registry st)
    ∧ make key args (exec m st)
      = ((outcome_map conv (constructor T args (environment st)).1),
         State (registry (exec m st)) (constructor T args (environment st)).2
               (invoked st ++ [g_hash_function key])).
Proof.
  intros Hconv HArgs. eexists. split; [by apply register_type_convertible|].
  split_and!; [done..|].
  change (make key args) with (make_for Value key args).
  rewrite (make_for_assigned Value key args _
             (target (callable_map conv (constructor T)))
             (g_registry (registry st) Value Args)).
  - unfold invoke, callable_map. simpl.
    by destruct (constructor T args (environment st)).
  - rewrite HArgs. apply registry_assign_eq.
Qed.

(** X15.  A registration under one key does not change what an instantiation
    under a key with another hash, or with arguments of another pack, does,
    in any shape: same result, same world, same calls. *)
Theorem registration_leaves_other_keys (s' : Shape) (key key' : key_type)
    (Args : signature) (args : list argument) (m : M unit) (st : state) :
  g_hash_function key' ≠ g_hash_function key ∨ decay args ≠ Args →
  (∀ R func, register_function R Args key func = Some m →
     observe (make_for s' key' args (exec m st)) = observe (make_for s' key' args st))
  ∧ (∀ T, register_type T Args key = Some m →
       observe (make_for s' key' args (exec m st)) = observe (make_for s' key' args st)).
Proof.
  intros Hne. split.
  - intros R func (s & conv & ->)%register_function_accepted.
    apply make_for_observe; [|done..]. by apply registry_assign_find_other.
  - intros T Hm. destruct (register_type_silent _ _ _ _ st Hm) as (_ & Henv & Hlog).
    apply make_for_observe; [|done..]. by eapply register_type_find_other.
Qed.

(** X17.  An empty [std::function] is registered like any other callable; the
    instantiation under its key then finds the entry and raises
    [std::bad_function_call], not the "Registry not found" error. *)
Theorem register_empty_function (R : return_type) (Args : signature)
    (key : key_type) (conv : values R → base_type) (args : list argument)
    (st : state) :
  ret_to_base_type R = Some conv →
  decay args = Args →
  ∃ m, register_function R Args key empty_function = Some m
    ∧ make key args (exec m st)
      = (raised bad_function_call,
         State (registry (exec m st)) (environment st)
               (invoked st ++ [g_hash_function key])).
Proof.
  intros Hconv HArgs. eexists. split; [by apply register_function_value|].
  change (make key args) with (make_for Value key args).
  rewrite (make_for_assigned Value key args _ empty_function
             (g_registry (registry st) Value Args)); [done|].
  rewrite HArgs. apply registry_assign_eq.
Qed.

End registration_then_instantiation.

(** ** The fallback over handles *)

Section fallback_over_handles.
Context `{Instantiation}.

Lemma try_handles_unfold (entries : partition pointer) args st :
  (r ← try_each non_null args entries None;
   match r with
   | inl obj => mret obj
   | inr (Some eptr) => throw eptr
   | inr None => mret None
   end) st
  = match try_each non_null args entries None st with
    | (returned (inl obj), st') => (returned obj, st')
    | (returned (inr (Some eptr)), st') => (raised eptr, st')
    | (returned (inr None), st') => (returned None, st')
    | (raised e, st') => (raised e, st')
    end.
Proof.
  unfold mbind, M_bind.
  by destruct (try_each non_null args entries None st) as [[[obj|[e|]]|e] st'].
Qed.

(** X18.  Over handle registries without entries the three fallbacks return
    [nullptr] and leave the state as it was ([try_make] raises or
    default-constructs there). *)
Theorem try_make_handle_empty (args : list argument) (st : state) :
  (ptr_registry (registry st) (decay args) = [] →
     try_make_ptr args st = (returned None, st))
  ∧ (shared_registry (registry st) (decay args) = [] →
     try_make_shared args st = (returned None, st))
  ∧ (unique_registry (registry st) (decay args) = [] →
     try_make_unique args st = (returned None, st)).
Proof.
  split_and!; intros Hempty;
    unfold try_make_ptr, try_make_shared, try_make_unique, get_registry;
    unfold mbind at 1, M_bind at 1; simpl; rewrite Hempty; reflexivity.
Qed.

(** X19.  A null result does not clear a failure: when no producer before
    [func] succeeds, [func] raises [e], and every producer after it returns
    a null handle, each called on the caller's pack as the calls before it
    left it, the three fallbacks raise [e] after having called every entry;
    they do not return [nullptr]. *)
Theorem try_make_handle_raise_then_null (args : list argument)
    (st st1 st2 st3 : state) (pre post : partition pointer) (id : Z)
    (func : function pointer) (e : exception) :
  all_fail designates_object args pre st = Some st1 →
  invoke id func (forwarded (length pre) args) st1 = (raised e, st2) →
  all_null (forwarded (S (length pre)) args) post st2 = Some st3 →
  (ptr_registry (registry st) (decay args) = pre ++ (id, func) :: post →
     try_make_ptr args st = (raised e, st3))
  ∧ (shared_registry (registry st) (decay args) = pre ++ (id, func) :: post →
     try_make_shared args st = (raised e, st3))
  ∧ (unique_registry (registry st) (decay args) = pre ++ (id, func) :: post →
     try_make_unique args st = (raised e, st3)).
Proof.
  intros Hpre Hinv Hpost.
  assert (try_each non_null args (pre ++ (id, func) :: post) None st
          = (returned (inr (Some e)), st3)) as Hloop.
  { rewrite (try_each_ext non_null designates_object)
      by apply non_null_designates_object.
    destruct (try_each_all_fail designates_object args pre ((id, func) :: post)
                None st st1 Hpre) as [eptr ->].
    rewrite <- (try_each_ext non_null designates_object)
      by apply non_null_designates_object.
    rewrite try_each_cons, Hinv.
    change (forward_all (forwarded (length pre) args))
      with (forwarded (S (length pre)) args).
    by apply try_each_all_null. }
  split_and!; intros Hreg;
    unfold try_make_ptr, try_make_shared, try_make_unique, get_registry;
    unfold mbind at 1, M_bind at 1; simpl; rewrite Hreg;
    by rewrite try_handles_unfold, Hloop.
Qed.

End fallback_over_handles.

(** ** The further statements on examples *)

(** Inserting a present key into a vector with unique keys. *)
Lemma insert_unique_witness :
  NoDup (detail.keys (detail.insert 1 30 [(1, 10); (2, 20)]))
  ∧ detail.count 1 (detail.insert 1 30 [(1, 10); (2, 20)]) = 1%nat.
Proof.
  apply (insert_unique 1 30 [(1, 10); (2, 20)]).
  apply (bool_decide_unpack _). by vm_compute.
Defined.

(** The registration of "my_cat" and the instantiation that follows: the
    [cat] named "Anber", converted to a [pet]. *)
Lemma register_function_then_make_witness :
  ∃ m, @register_function tests.pet_factory tests.returns_cat [] "my_cat"%string
         tests.my_cat = Some m
    ∧ @make tests.pet_factory "my_cat"%string []
        (exec m (@initial_state tests.pet_factory 0%nat))
      = (returned (tests.cat "Anber"),
         @State tests.pet_factory
           (registry (exec m (@initial_state tests.pet_factory 0%nat)))
           0%nat [tests.string_hash "my_cat"]).
Proof.
  destruct (proj1 (@register_function_then_make tests.pet_factory tests.returns_cat []
                     "my_cat"%string (λ _ (w : nat), (returned (tests.cat "Anber"), w))
                     [] (@initial_state tests.pet_factory 0%nat) eq_refl)
              (λ obj : tests.pet, obj) eq_refl)
    as (m & (Hm & _) & Hmake).
  exists m. split; [exact Hm|]. rewrite Hmake.
  injection Hm as <-. reflexivity.
Defined.

(** [dog] is registered by value only. *)
Lemma register_type_convertible_value_only_witness :
  ∃ m, @register_type tests.pet_factory tests.dog_type [] "dog"%string = Some m
    ∧ ptr_registry (registry (exec m (@initial_state tests.pet_factory 0%nat)))
      = ptr_registry (registry (@initial_state tests.pet_factory 0%nat))
    ∧ (@make tests.pet_factory "dog"%string []
         (exec m (@initial_state tests.pet_factory 0%nat))).1
      = returned (tests.dog "").
Proof.
  destruct (@register_type_convertible_value_only tests.pet_factory tests.dog_type []
              "dog"%string (λ obj : tests.pet, obj) []
              (@initial_state tests.pet_factory 0%nat) eq_refl eq_refl)
    as (m & Hm & Hptr & _ & _ & Hmake).
  exists m. split; [exact Hm|]. split; [exact Hptr|]. by rewrite Hmake.
Defined.

(** Registering "my_cat" does not change what [make("dog")] does. *)
Lemma registration_leaves_other_keys_witness :
  ∃ m, @register_function tests.pet_factory tests.returns_cat [] "my_cat"%string
         tests.my_cat = Some m
    ∧ observe (@make_for tests.pet_factory Value "dog"%string []
                 (exec m tests.pets_registered))
      = observe (@make_for tests.pet_factory Value "dog"%string [] tests.pets_registered).
Proof.
  assert (tests.string_hash "dog" ≠ tests.string_hash "my_cat") as Hne
    by (by vm_compute).
  eexists. split; [reflexivity|].
  apply (proj1 (@registration_leaves_other_keys tests.pet_factory Value
                  "my_cat"%string "dog"%string [] [] _ tests.pets_registered
                  (or_introl Hne))
           tests.returns_cat tests.my_cat).
  reflexivity.
Defined.

(** An empty [std::function<cat()>] registered under "none". *)
Lemma register_empty_function_witness :
  ∃ m, @register_function tests.pet_factory tests.returns_cat [] "none"%string
         empty_function = Some m
    ∧ (@make tests.pet_factory "none"%string []
         (exec m (@initial_state tests.pet_factory 0%nat))).1
      = raised bad_function_call.
Proof.
  destruct (@register_empty_function tests.pet_factory tests.returns_cat []
              "none"%string (λ obj : tests.pet, obj) []
              (@initial_state tests.pet_factory 0%nat) eq_refl eq_refl)
    as (m & Hm & Hmake).
  exists m. split; [exact Hm|]. by rewrite Hmake.
Defined.

(** Before any registration the handle fallbacks return [nullptr]. *)
Lemma try_make_handle_empty_witness :
  @try_make_ptr tests.BaseClass_factory [] (@initial_state tests.BaseClass_factory 0%nat)
  = (returned None, @initial_state tests.BaseClass_factory 0%nat).
Proof.
  apply (@try_make_handle_empty tests.BaseClass_factory []). reflexivity.
Defined.

(** A producer that throws, then one that returns [nullptr] for an empty
    name, called with a temporary string: the exception is raised. *)
Lemma try_make_handle_raise_then_null_witness :
  @try_make_ptr tests.BaseClass_factory [tests.string_rvalue "Tom"]
    tests.throws_then_nullptr
  = (raised (@other_exception tests.BaseClass_factory "P1 failed"%string),
     @State tests.BaseClass_factory (registry tests.throws_then_nullptr) 2%nat [1; 2]).
Proof.
  apply (@try_make_handle_raise_then_null tests.BaseClass_factory
           [tests.string_rvalue "Tom"]
           tests.throws_then_nullptr tests.throws_then_nullptr
           (@State tests.BaseClass_factory (registry tests.throws_then_nullptr) 1%nat [1])
           (@State tests.BaseClass_factory (registry tests.throws_then_nullptr) 2%nat [1; 2])
           [] [(2, tests.nullptr_for_no_name)] 1 (tests.throwing_handle "P1 failed")).
  - reflexivity.
  - reflexivity.
  - reflexivity.
  - reflexivity.
Defined.

(** With keys that are their own hash, [register_type<ConcreteClassA>()]
    and [make_ptr<ConcreteClassA>()] meet. *)
Lemma register_type_by_typeid_found_witness :
  ∃ m, @register_type_by_typeid tests.size_t_key_factory tests.ConcreteClassA []
       = Some m
    ∧ observe (@make_ptr_of_type tests.size_t_key_factory tests.ConcreteClassA []
                 (exec m (@initial_state tests.size_t_key_factory 0%nat)))
      = (returned (Some tests.ConcreteClassA_object), 1%nat,
         [tests.string_hash "14ConcreteClassA"]).
Proof.
  destruct (@register_type_by_typeid_found tests.size_t_key_factory
              tests.ConcreteClassA [] (λ h, h) []
              (@initial_state tests.size_t_key_factory 0%nat)
              eq_refl eq_refl eq_refl eq_refl) as (m & Hm & Hptr & _).
  exists m. split; [exact Hm|]. rewrite Hptr.
  injection Hm as <-. reflexivity.
Defined.

(** With 32-bit keys they do not. *)
Lemma register_type_by_typeid_missed_witness :
  ∃ m, @register_type_by_typeid tests.uint_key_factory tests.ConcreteClassA []
       = Some m
    ∧ @make_ptr_of_type tests.uint_key_factory tests.ConcreteClassA []
        (exec m (@initial_state tests.uint_key_factory 0%nat))
      = (raised RegistryMiss, exec m (@initial_state tests.uint_key_factory 0%nat)).
Proof.
  eexists. split; [reflexivity|].
  refine (proj1 (proj2 (@register_type_by_typeid_missed tests.uint_key_factory
            tests.ConcreteClassA [] (λ h, h `mod` 2 ^ 32) _ []
            (@initial_state tests.uint_key_factory 0%nat) eq_refl _ eq_refl _))).
  - by vm_compute.
  - intros s. by destruct s.
Defined.
